(** * Feathered crop (cutter.py): a shallow embedding and its properties

    The development follows [src/cutter.py]: the function
    [create_feathered_image] (crop, mask construction, alpha compositing)
    and the batch driver [process].

    Pillow is an external library.  Its operations are modelled after its
    documented behaviour: [Image.crop] rounds a float box with Python's
    [round], refuses a box beyond the decompression-bomb limit or the C
    [int] range, and fills what lies outside the source with the zero
    pixel of the image's mode (where the C core's own arithmetic would
    leave the [int] range the model yields no image); [ImageDraw] boxes
    include both end points and are refused with [ValueError] when the
    second point lies before the first; [putalpha] needs a mask of the
    image's size.  The pixels of an ellipse are left to a [Rasterizer]. *)

From Stdlib Require Import ZArith QArith Qpower Qround Qreduction Qabs Lia Lqa Ascii String.
From stdpp Require Import gmap strings list.

(** ** Python floats

    A Python float is an IEEE binary64 number.  Finite floats are
    rationals, so a float is a [Q]; every operation computes the exact
    rational and rounds it to the nearest binary64 value, ties to the even
    significand ([b64]).  Results beyond the binary64 range (above
    [2^1024]) are not modelled. *)
Module Float.
Local Open Scope Q_scope.

(** [binade q] is [floor (log2 q)] for [q > 0]. *)
Definition binade (q : Q) : Z :=
  let d := (Z.log2 (Qnum q) - Z.log2 (Zpos (Qden q)))%Z in
  if Qle_bool (2 ^ d) q then d else (d - 1)%Z.

(** Nearest integer, ties to even: Python's [round] on a float. *)
Definition rne (q : Q) : Z :=
  let f := Qfloor q in
  match Qcompare (q - inject_Z f) (1 # 2) with
  | Lt => f
  | Gt => (f + 1)%Z
  | Eq => if Z.even f then f else (f + 1)%Z
  end.

(** Spacing of binary64 around [q > 0]: 53 significant bits, and the
    fixed spacing [2^-1074] of the subnormal range. *)
Definition ulp_exp (q : Q) : Z := (Z.max (binade q) (-1022) - 52)%Z.

Definition round_pos (q : Q) : Q :=
  inject_Z (rne (q / 2 ^ ulp_exp q)) * 2 ^ ulp_exp q.

Definition b64 (q : Q) : Q :=
  let r := Qred q in
  Qred match Qcompare r 0 with
       | Eq => 0
       | Gt => round_pos r
       | Lt => - round_pos (- r)
       end.

(** [float(n)], [a / b] on two ints (correctly rounded), [x * y],
    [x + y], [int(x)] (truncation) and [round(x)]. *)
Definition of_int (n : Z) : Q := b64 (inject_Z n).
Definition true_div (a b : Z) : Q := b64 (inject_Z a / inject_Z b).
Definition mul (x y : Q) : Q := b64 (x * y).
Definition add (x y : Q) : Q := b64 (x + y).
Definition py_int (x : Q) : Z := Z.quot (Qnum x) (Zpos (Qden x)).
Definition py_round (x : Q) : Z := rne x.

End Float.

Local Open Scope Z_scope.

(** ** Rasters and Pillow images *)

Record Raster (P : Type) : Type := mkRaster {
  width : Z;
  height : Z;
  px : Z -> Z -> P
}.
Arguments mkRaster {P} _ _ _.
Arguments width {P} _.
Arguments height {P} _.
Arguments px {P} _ _ _.

Definition inside {P} (r : Raster P) (x y : Z) : bool :=
  (0 <=? x) && (x <? width r) && (0 <=? y) && (y <? height r).

Definition getpixel {P} (r : Raster P) (x y : Z) : option P :=
  if inside r x y then Some (px r x y) else None.

Record rgb : Type := RGB { rgb_r : Z; rgb_g : Z; rgb_b : Z }.
Record rgba : Type := RGBA { red : Z; green : Z; blue : Z; alpha : Z }.

(** The image modes the model covers: 8-bit grey, RGB, RGBA and palette
    images (mode P, as GIF and 8-bit PNG files open).  A palette image
    holds indices; its palette gives every index its colour and, through
    the file's transparency entry, its alpha. *)
Inductive Image : Type :=
  | ImL (r : Raster Z)
  | ImRGB (r : Raster rgb)
  | ImRGBA (r : Raster rgba)
  | ImP (r : Raster Z) (palette : Z -> rgba).

Definition size (im : Image) : Z * Z :=
  match im with
  | ImL r => (width r, height r)
  | ImRGB r => (width r, height r)
  | ImRGBA r => (width r, height r)
  | ImP r _ => (width r, height r)
  end.

Definition Box : Type := Z * Z * Z * Z.

(** The core of [Image.crop]: the region keeps the requested size (never
    a negative one) and takes a zero pixel wherever the box leaves the
    source. *)
Definition raster_crop {P} (zero : P) (r : Raster P) (b : Box) : Raster P :=
  let '(x0, y0, x1, y1) := b in
  mkRaster (Z.max 0 (x1 - x0)) (Z.max 0 (y1 - y0))
    (fun x y => if inside r (x + x0) (y + y0) then px r (x + x0) (y + y0) else zero).

Definition round_box (box : Q * Q * Q * Q) : Box :=
  let '(l, u, r, lo) := box in
  (Float.py_round l, Float.py_round u, Float.py_round r, Float.py_round lo).

(** The core crop: a palette image keeps its palette, and its cells
    outside the source hold index 0. *)
Definition core_crop (im : Image) (b : Box) : Image :=
  match im with
  | ImL m => ImL (raster_crop 0 m b)
  | ImRGB m => ImRGB (raster_crop (RGB 0 0 0) m b)
  | ImRGBA m => ImRGBA (raster_crop (RGBA 0 0 0 0) m b)
  | ImP m pal => ImP (raster_crop 0 m b) pal
  end.

(** Pillow's limit on the number of pixels, [Image.MAX_IMAGE_PIXELS]. *)
Definition MAX_IMAGE_PIXELS : Z := 1024 * 1024 * 1024 / 4 / 3.

(** [_decompression_bomb_check]: more than twice the limit is an error. *)
Definition bomb (b : Box) : bool :=
  let '(x0, y0, x1, y1) := b in
  2 * MAX_IMAGE_PIXELS <? Z.max 1 (Z.abs (x1 - x0)) * Z.max 1 (Z.abs (y1 - y0)).

(** The core takes the four coordinates as C [int]s. *)
Definition fits_c_int (n : Z) : bool := (- 2 ^ 31 <=? n) && (n <=? 2 ^ 31 - 1).

(** The rounded boxes on which [Image.crop] raises:
    [DecompressionBombError], or the [OverflowError] of a coordinate that
    does not fit a C [int]. *)
Definition crop_raises (b : Box) : bool :=
  let '(x0, y0, x1, y1) := b in
  bomb b
  || negb (fits_c_int x0 && fits_c_int y0 && fits_c_int x1 && fits_c_int y1).

(** The core pastes the source into the new image between [(-x0, -y0)]
    and [(W - x0, H - y0)], computed as C [int]s; beyond the [int] range
    that arithmetic is undefined in C. *)
Definition paste_defined (sz : Z * Z) (b : Box) : bool :=
  let '(x0, y0, _, _) := b in
  fits_c_int (- x0) && fits_c_int (- y0)
  && fits_c_int (fst sz - x0) && fits_c_int (snd sz - y0).

(** The boxes the crop of an image of size [sz] is defined on. *)
Definition crop_permitted (sz : Z * Z) (b : Box) : bool :=
  negb (crop_raises b) && paste_defined sz b.

(** [Image.crop(box)].  [None] stands for a raise: the [ValueError] on a
    box whose right (lower) coordinate is less than its left (upper) one,
    then, on the rounded box, the [DecompressionBombError] and the
    [OverflowError] of a coordinate that does not fit a C [int].  Where
    the core's paste arithmetic would overflow, Pillow's behaviour is not
    defined: the model yields no image there either, and no statement
    below depends on that choice. *)
Definition Image_crop (im : Image) (box : Q * Q * Q * Q) : option Image :=
  let '(l, u, r, lo) := box in
  if Qlt_le_dec r l then None
  else if Qlt_le_dec lo u then None
  else if crop_raises (round_box box) then None
  else if paste_defined (size im) (round_box box)
       then Some (core_crop im (round_box box))
  else None.

Definition Image_copy (im : Image) : Image := im.

(** [convert("RGBA")]: grey is replicated, an image without alpha becomes
    opaque, an RGBA image is copied as it is, a palette image takes the
    entry of each index. *)
Definition Image_convert_RGBA (im : Image) : Raster rgba :=
  match im with
  | ImL m => mkRaster (width m) (height m) (fun x y => let v := px m x y in RGBA v v v 255)
  | ImRGB m =>
      mkRaster (width m) (height m)
        (fun x y => let p := px m x y in RGBA (rgb_r p) (rgb_g p) (rgb_b p) 255)
  | ImRGBA m => m
  | ImP m pal => mkRaster (width m) (height m) (fun x y => pal (px m x y))
  end.

Definition Image_new_L (sz : Z * Z) (fill : Z) : Raster Z :=
  mkRaster (fst sz) (snd sz) (fun _ _ => fill).

(** *** ImageDraw *)

(** Which pixels [ImageDraw.ellipse] fills for a bounding box is decided
    inside Pillow; the model takes it as a parameter. *)
Class Rasterizer : Type := { ellipse_covers : Box -> Z -> Z -> bool }.

(** The lattice points of the ellipse inscribed in the box, in doubled
    coordinates about the centre. *)
Definition inscribed_ellipse (b : Box) (x y : Z) : bool :=
  let '(x0, y0, x1, y1) := b in
  let a := x1 - x0 in
  let c := y1 - y0 in
  let u := 2 * x - (x0 + x1) in
  let v := 2 * y - (y0 + y1) in
  (x0 <=? x) && (x <=? x1) && (y0 <=? y) && (y <=? y1)
  && (u * u * (c * c) + v * v * (a * a) <=? a * a * (c * c)).

Definition analytic : Rasterizer := {| ellipse_covers := inscribed_ellipse |}.

Definition rectangle_covers (b : Box) (x y : Z) : bool :=
  let '(x0, y0, x1, y1) := b in
  (x0 <=? x) && (x <=? x1) && (y0 <=? y) && (y <=? y1).

Definition inverted (b : Box) : bool :=
  let '(x0, y0, x1, y1) := b in (x1 <? x0) || (y1 <? y0).

Definition fill_where (cov : Z -> Z -> bool) (fill : Z) (m : Raster Z) : Raster Z :=
  mkRaster (width m) (height m) (fun x y => if cov x y then fill else px m x y).

Section Drawing.
Context {R : Rasterizer}.

(** The shape a call draws: [shape == 'circle'] selects the ellipse, any
    other string the rectangle. *)
Definition covers (shape : string) (b : Box) (x y : Z) : bool :=
  if String.eqb shape "circle" then ellipse_covers b x y else rectangle_covers b x y.

Definition Draw_ellipse (b : Box) (fill : Z) (m : Raster Z) : option (Raster Z) :=
  if inverted b then None else Some (fill_where (ellipse_covers b) fill m).

Definition Draw_rectangle (b : Box) (fill : Z) (m : Raster Z) : option (Raster Z) :=
  if inverted b then None else Some (fill_where (rectangle_covers b) fill m).

Definition draw_shape (shape : string) (b : Box) (fill : Z) (m : Raster Z)
  : option (Raster Z) :=
  if String.eqb shape "circle" then Draw_ellipse b fill m else Draw_rectangle b fill m.

End Drawing.

(** [putalpha(mask)]: [None] is the [ValueError] on a mask of another
    size. *)
Definition Image_putalpha (im : Raster rgba) (mask : Raster Z) : option (Raster rgba) :=
  if (width im =? width mask) && (height im =? height mask)
  then Some (mkRaster (width im) (height im)
               (fun x y => let p := px im x y in
                           RGBA (red p) (green p) (blue p) (px mask x y)))
  else None.

(** ** The three phases of [create_feathered_image] *)

Definition range (n : Z) : list Z := map Z.of_nat (seq 0 (Z.to_nat n)).

Fixpoint foldM {A B} (f : A -> B -> option A) (a : A) (l : list B) : option A :=
  match l with
  | [] => Some a
  | b :: l' => match f a b with Some a' => foldM f a' l' | None => None end
  end.

(** Lines 26-36: the float box of the centred square crop. *)
Definition crop_box (sz : Z * Z) (offset_x offset_y : Z) : Q * Q * Q * Q :=
  let '(width, height) := sz in
  let crop_size := Z.min width height in
  let left := Float.true_div (width - crop_size) 2 in
  let top := Float.true_div (height - crop_size) 2 in
  let right := Float.true_div (width + crop_size) 2 in
  let bottom := Float.true_div (height + crop_size) 2 in
  (Float.add left (Float.of_int offset_x), Float.add top (Float.of_int offset_y),
   Float.add right (Float.of_int offset_x), Float.add bottom (Float.of_int offset_y)).

(** Lines 26-42: crop (or copy), then conversion to RGBA. *)
Definition crop (image : Image) (square : bool) (offset_x offset_y : Z)
  : option (Raster rgba) :=
  cropped_image ← (if square
                   then Image_crop image (crop_box (size image) offset_x offset_y)
                   else Some (Image_copy image));
  Some (Image_convert_RGBA cropped_image).

(** Line 62: [int(255 * (i / feather))]. *)
Definition color (i feather : Z) : Z :=
  Float.py_int (Float.mul (Float.of_int 255) (Float.true_div i feather)).

Definition solid_shape_box (shape_padding mask_width mask_height : Z) : Box :=
  (shape_padding, shape_padding, mask_width - shape_padding, mask_height - shape_padding).

Definition feather_box (solid : Box) (inset : Z) : Box :=
  let '(x0, y0, x1, y1) := solid in
  (x0 - inset, y0 - inset, x1 + inset, y1 + inset).

(** What iteration [i] of the gradient loop draws: its box and its fill. *)
Definition layer (feather : Z) (solid : Box) (i : Z) : Box * Z :=
  let color := color i feather in
  let inset := feather - i in
  (feather_box solid inset, color).

Section Pipeline.
Context {R : Rasterizer}.

Definition gradient_step (shape : string) (feather : Z) (solid : Box)
  (mask : Raster Z) (i : Z) : option (Raster Z) :=
  let '(box, color) := layer feather solid i in
  draw_shape shape box color mask.

(** Lines 46-85. *)
Definition buildMask (sz : Z * Z) (feather : Z) (shape : string) (shape_padding : Z)
  : option (Raster Z) :=
  let mask := Image_new_L sz 0 in
  let solid := solid_shape_box shape_padding (width mask) (height mask) in
  mask ← foldM (gradient_step shape feather solid) mask (range feather);
  draw_shape shape solid 255 mask.

(** Line 88. *)
Definition composite (raster : Raster rgba) (mask : Raster Z) : option (Raster rgba) :=
  Image_putalpha raster mask.

(** The value [create_feathered_image] computes from the value of its
    input image. *)
Definition createFeatheredImage (image : Image) (square : bool) (offset_x offset_y : Z)
  (feather : Z) (shape : string) (shape_padding : Z) : option (Raster rgba) :=
  cropped_image ← crop image square offset_x offset_y;
  mask ← buildMask (width cropped_image, height cropped_image) feather shape shape_padding;
  composite cropped_image mask.

End Pipeline.

(** ** Image objects

    A Pillow image is a mutable object.  [Store] maps object references to
    their current contents; a computation of [ImgM] reads and writes the
    store and may raise ([None]).  It has no other effect. *)

Abbreviation Store := (gmap positive Image).

Definition ImgM (A : Type) : Type := Store -> option A * Store.

Definition ret {A} (a : A) : ImgM A := fun s => (Some a, s).
Definition raise {A} : ImgM A := fun s => (None, s).
Definition bind {A B} (m : ImgM A) (k : A -> ImgM B) : ImgM B :=
  fun s => match m s with
           | (Some a, s') => k a s'
           | (None, s') => (None, s')
           end.

Notation "'let!' x ':=' m 'in' k" := (bind m (fun x => k))
  (at level 10, x pattern, k at level 200).

Definition alloc (im : Image) : ImgM positive :=
  fun s => let r := fresh (dom s) in (Some r, <[r := im]> s).
Definition load (r : positive) : ImgM Image := fun s => (s !! r, s).
Definition update (r : positive) (im : Image) : ImgM unit :=
  fun s => (Some tt, <[r := im]> s).

(** [s'] still holds every object of [s], unchanged. *)
Definition extends (s s' : Store) : Prop :=
  forall k v, s !! k = Some v -> s' !! k = Some v.

Fixpoint for_each {B} (l : list B) (body : B -> ImgM unit) : ImgM unit :=
  match l with
  | [] => ret tt
  | b :: l' => let! _ := body b in for_each l' body
  end.

Definition obj_size (r : positive) : ImgM (Z * Z) :=
  let! im := load r in ret (size im).

Definition obj_crop (r : positive) (box : Q * Q * Q * Q) : ImgM positive :=
  let! im := load r in
  match Image_crop im box with
  | Some c => alloc c
  | None => raise
  end.

Definition obj_copy (r : positive) : ImgM positive :=
  let! im := load r in alloc (Image_copy im).

Definition obj_convert_RGBA (r : positive) : ImgM positive :=
  let! im := load r in alloc (ImRGBA (Image_convert_RGBA im)).

Definition obj_new_L (sz : Z * Z) (fill : Z) : ImgM positive :=
  alloc (ImL (Image_new_L sz fill)).

(** A drawing call changes the grey image behind the draw handle in
    place. *)
Definition draw_on (op : Raster Z -> option (Raster Z)) (r : positive) : ImgM unit :=
  let! im := load r in
  match im with
  | ImL m => match op m with
             | Some m' => update r (ImL m')
             | None => raise
             end
  | _ => raise
  end.

Definition obj_putalpha (r mask : positive) : ImgM unit :=
  let! im := load r in
  let! mk := load mask in
  match im, mk with
  | ImRGBA m, ImL a => match Image_putalpha m a with
                       | Some m' => update r (ImRGBA m')
                       | None => raise
                       end
  | _, _ => raise
  end.

Section Program.
Context {R : Rasterizer}.

Definition create_feathered_image (image : positive) (square : bool)
  (offset_x offset_y feather : Z) (shape : string) (shape_padding : Z) : ImgM positive :=
  (* --- 1. Crop the image --- *)
  let! cropped_image :=
    (if square
     then let! sz := obj_size image in
          obj_crop image (crop_box sz offset_x offset_y)
     else obj_copy image) in
  let! cropped_image := obj_convert_RGBA cropped_image in
  (* --- 2. Create the alpha mask --- *)
  let! sz := obj_size cropped_image in
  let! mask := obj_new_L sz 0 in
  let draw := mask in
  let! msz := obj_size mask in
  let solid_shape_box := solid_shape_box shape_padding (fst msz) (snd msz) in
  (* --- 3. Draw the feathering gradient on the mask --- *)
  let! _ :=
    for_each (range feather) (fun i =>
      let color := color i feather in
      let inset := feather - i in
      let feather_box := feather_box solid_shape_box inset in
      if String.eqb shape "circle"
      then draw_on (Draw_ellipse feather_box color) draw
      else draw_on (Draw_rectangle feather_box color) draw) in
  (* --- 4. Draw the solid center on the mask --- *)
  let! _ :=
    (if String.eqb shape "circle"
     then draw_on (Draw_ellipse solid_shape_box 255) draw
     else draw_on (Draw_rectangle solid_shape_box 255) draw) in
  (* --- 5. Apply the mask to the image's alpha channel --- *)
  let! _ := obj_putalpha cropped_image mask in
  ret cropped_image.

End Program.

(** ** The batch driver *)

Definition SUPPORTED_EXTENSIONS : list string :=
  [".png"; ".jpg"; ".jpeg"; ".bmp"; ".gif"; ".tiff"]%string.

Definition ascii_lower (c : ascii) : ascii :=
  let n := nat_of_ascii c in
  if (65 <=? n)%nat && (n <=? 90)%nat then ascii_of_nat (n + 32) else c.

Fixpoint lower (s : string) : string :=
  match s with
  | EmptyString => EmptyString
  | String c s' => String (ascii_lower c) (lower s')
  end.

(** A directory entry as [iterdir] yields it; [decoded] is what
    [Image.open] makes of the file, [None] when it raises. *)
Record DirEntry : Type := {
  stem : string;
  suffix : string;
  is_file : bool;
  decoded : option Image
}.

Inductive Message : Type :=
  | InputFolder
  | OutputFolder
  | NoImages
  | CouldNotProcess (name : string)
  | Complete.

Inductive Event : Type :=
  | Mkdir (name : string)
  | Echo (m : Message)
  | Saved (name : string) (im : Image).

Record World : Type := mkWorld { heap : Store; trace : list Event }.

Definition emit (e : Event) (w : World) : World :=
  mkWorld (heap w) (trace w ++ [e]).

(** An image computation run inside the driver: it sees the heap only. *)
Definition lift {A} (m : ImgM A) (w : World) : option A * World :=
  let '(a, h) := m (heap w) in (a, mkWorld h (trace w)).

Inductive Outcome : Type := Returned | BadParameter.

Section Driver.
Context {R : Rasterizer}.

Definition process_file (square : bool) (offset_x offset_y feather : Z)
  (shape : string) (shape_padding : Z) (w : World) (image_path : DirEntry) : World :=
  let failed := emit (Echo (CouldNotProcess (stem image_path ++ suffix image_path))) in
  match decoded image_path with
  | None => failed w
  | Some im =>
      let '(res, w1) :=
        lift (let! img := alloc im in
              let! processed_image :=
                create_feathered_image img square offset_x offset_y feather shape
                  shape_padding in
              load processed_image) w in
      match res with
      | Some out => emit (Saved (stem image_path ++ ".png") out) w1
      | None => failed w1
      end
  end.

Definition process (folder : list DirEntry) (square : bool) (offset_x offset_y feather : Z)
  (shape : string) (shape_padding : Z) (w : World) : Outcome * World :=
  (* --- Input Validation --- *)
  if shape_padding <=? feather then (BadParameter, w)
  else
    (* --- Setup Paths --- *)
    let w := emit (Mkdir "processed") w in
    let w := emit (Echo InputFolder) w in
    let w := emit (Echo OutputFolder) w in
    (* --- Find and Process Images --- *)
    let image_files :=
      filter (fun p => is_file p = true
                       ∧ lower (suffix p) ∈ SUPPORTED_EXTENSIONS) folder in
    match image_files with
    | [] => (Returned, emit (Echo NoImages) w)
    | _ =>
        let w := foldl (process_file square offset_x offset_y feather shape shape_padding)
                   w image_files in
        (Returned, emit (Echo Complete) w)
    end.

End Driver.

(** ** Notions the statements use *)

(** [round(n / 2)] for an integer [n]: the half-integers go to the even
    neighbour. *)
Definition round_half (n : Z) : Z :=
  let k := n / 2 in
  if Z.even n then k else if Z.even k then k else k + 1.

(** The policy clamp-to-bounds would apply to a crop box. *)
Definition clamp_box (sz : Z * Z) (b : Box) : Box :=
  let '(x0, y0, x1, y1) := b in
  (Z.max 0 x0, Z.max 0 y0, Z.min (fst sz) x1, Z.min (snd sz) y1).

(** What a cell outside the source holds after the crop phase: the zero
    pixel of the image's mode, converted to RGBA. *)
Definition zero_fill (im : Image) : rgba :=
  match im with
  | ImL _ => RGBA 0 0 0 255
  | ImRGB _ => RGBA 0 0 0 255
  | ImRGBA _ => RGBA 0 0 0 0
  | ImP _ pal => pal 0
  end.

(** The crop that clamping the box to the image bounds would give. *)
Definition clamped_crop (image : Image) (offset_x offset_y : Z) : option (Raster rgba) :=
  let b := clamp_box (size image) (round_box (crop_box (size image) offset_x offset_y)) in
  Some (Image_convert_RGBA (core_crop image b)).

(** Rasters for the concrete cases: pixel [(x, y)] holds its coordinates. *)
Definition sample_rgb (w h : Z) : Image :=
  ImRGB (mkRaster w h (fun x y => RGB x y 7)).

Definition sample_rgba (w h a : Z) : Image :=
  ImRGBA (mkRaster w h (fun x y => RGBA x y 7 a)).

(** A palette image whose entry 0 is an opaque red. *)
Definition sample_palette (w h : Z) : Image :=
  ImP (mkRaster w h (fun x y => x + y))
      (fun i => if i =? 0 then RGBA 200 0 0 255 else RGBA i i i 255).

(** [floor(255 * i / featherWidth)] in integer arithmetic. *)
Definition intensity (i feather : Z) : Z := 255 * i / feather.

Section Layers.
Context {R : Rasterizer}.

(** What a sequence of filled shapes leaves in one cell that held [v]. *)
Fixpoint paint (shape : string) (layers : list (Box * Z)) (v : Z) (x y : Z) : Z :=
  match layers with
  | [] => v
  | (b, c) :: rest => paint shape rest (if covers shape b x y then c else v) x y
  end.

(** Drawing a sequence of filled shapes, first to last. *)
Definition draw_all (shape : string) (m : Raster Z) (layers : list (Box * Z))
  : option (Raster Z) :=
  foldM (fun m l => draw_shape shape (fst l) (snd l) m) m layers.

(** The shapes of a mask in drawing order: the rings, then the solid
    shape. *)
Definition mask_layers (feather : Z) (solid : Box) : list (Box * Z) :=
  map (layer feather solid) (range feather) ++ [(solid, 255)].

(** How far a cell is from the solid shape, counted in rings: the least
    inset [d] in [0 .. feather] whose shape around the solid box covers
    the cell, and [feather + 1] outside every ring. *)
Definition ring_distance (shape : string) (feather : Z) (solid : Box) (x y : Z) : Z :=
  match find (fun d => covers shape (feather_box solid d) x y) (range (feather + 1)) with
  | Some d => d
  | None => feather + 1
  end.

(** The fill of the shape drawn at inset [d]: 255 for the solid shape,
    the gradient colour of ring [feather - d], nothing outside. *)
Definition ring_value (feather d : Z) : Z :=
  if d =? 0 then 255
  else if d <=? feather then color (feather - d) feather
  else 0.

End Layers.

(** Distance of a cell to a box in the maximum norm, negative inside. *)
Definition box_distance (b : Box) (x y : Z) : Z :=
  let '(x0, y0, x1, y1) := b in
  Z.max (Z.max (x0 - x) (x - x1)) (Z.max (y0 - y) (y - y1)).

(** ** Notions for the batch driver *)

(** The entries [process] works on: regular files with a supported
    extension, in directory order. *)
Definition image_files (folder : list DirEntry) : list DirEntry :=
  filter (fun p => is_file p = true /\ lower (suffix p) ∈ SUPPORTED_EXTENSIONS) folder.

Section DriverEvents.
Context {R : Rasterizer}.

(** What one image file leaves in the trace: the saved PNG, or the report
    that it could not be processed. *)
Definition file_event (square : bool) (offset_x offset_y feather : Z) (shape : string)
  (shape_padding : Z) (p : DirEntry) : Event :=
  match decoded p ≫= (fun im => createFeatheredImage im square offset_x offset_y feather
                                   shape shape_padding) with
  | Some out => Saved (stem p ++ ".png") (ImRGBA out)
  | None => Echo (CouldNotProcess (stem p ++ suffix p))
  end.

End DriverEvents.

(** * Facts about the float model *)

Module FloatFacts.
Import Float.
Local Open Scope Q_scope.

Lemma two_gt_1 : 1 < 2.
Proof. reflexivity. Qed.

Lemma pow2_pos e : 0 < 2 ^ e.
Proof. apply Qpower_0_lt. reflexivity. Qed.

Lemma pow2_add a b : 2 ^ (a + b) == 2 ^ a * 2 ^ b.
Proof. apply Qpower_plus. intro H. discriminate H. Qed.

Lemma pow2_lt a b : (a < b)%Z -> 2 ^ a < 2 ^ b.
Proof. intros H. apply Qpower_lt_compat_l; [exact H | exact two_gt_1]. Qed.

Lemma pow2_le a b : (a <= b)%Z -> 2 ^ a <= 2 ^ b.
Proof. intros H. apply Qpower_le_compat_l; [exact H | apply Qlt_le_weak, two_gt_1]. Qed.

Lemma pow2_lt_inv a b : 2 ^ a < 2 ^ b -> (a < b)%Z.
Proof. intros H. apply (Qpower_lt_compat_l_inv 2); [exact H | exact two_gt_1]. Qed.

Lemma pow2_Z n : (0 <= n)%Z -> inject_Z (2 ^ n) == 2 ^ n.
Proof. intros H. apply (Zpower_Qpower 2 n H). Qed.

Lemma pow2_sub a b : 2 ^ (a - b) == 2 ^ a / 2 ^ b.
Proof.
  assert (H := pow2_add (a - b) b). replace (a - b + b)%Z with a in H by ring.
  rewrite H. field. intro E. pose proof (pow2_pos b) as P. rewrite E in P. discriminate P.
Qed.

Lemma binade_spec q : 0 < q -> 2 ^ binade q <= q /\ q < 2 ^ (binade q + 1).
Proof.
  destruct q as [a b]. intros Hq.
  assert (Ha : (0 < a)%Z).
  { unfold Qlt in Hq. simpl in Hq. lia. }
  unfold binade. cbn [Qnum Qden].
  set (la := Z.log2 a). set (lb := Z.log2 (Zpos b)).
  destruct (Z.log2_spec a Ha) as [Ha1 Ha2]. fold la in Ha1, Ha2.
  destruct (Z.log2_spec (Zpos b) eq_refl) as [Hb1 Hb2]. fold lb in Hb1, Hb2.
  assert (Hla : (0 <= la)%Z) by apply Z.log2_nonneg.
  assert (Hlb : (0 <= lb)%Z) by apply Z.log2_nonneg.
  assert (Qa1 : 2 ^ la <= inject_Z a).
  { rewrite <- pow2_Z by exact Hla. rewrite <- Zle_Qle. exact Ha1. }
  assert (Qa2 : inject_Z a < 2 ^ (la + 1)).
  { rewrite <- pow2_Z by lia. rewrite <- Zlt_Qlt. replace (la + 1)%Z with (Z.succ la) by lia. exact Ha2. }
  assert (Qb1 : 2 ^ lb <= inject_Z (Zpos b)).
  { rewrite <- pow2_Z by exact Hlb. rewrite <- Zle_Qle. exact Hb1. }
  assert (Qb2 : inject_Z (Zpos b) < 2 ^ (lb + 1)).
  { rewrite <- pow2_Z by lia. rewrite <- Zlt_Qlt. replace (lb + 1)%Z with (Z.succ lb) by lia. exact Hb2. }
  assert (Hb : 0 < inject_Z (Zpos b)) by reflexivity.
  assert (Hlow : 2 ^ (la - lb - 1) < a # b).
  { rewrite (Qmake_Qdiv a b). apply Qlt_shift_div_l; [exact Hb|].
    apply Qlt_le_trans with (2 ^ (la - lb - 1) * 2 ^ (lb + 1)).
    - apply Qmult_lt_l; [apply pow2_pos | exact Qb2].
    - rewrite <- pow2_add. replace (la - lb - 1 + (lb + 1))%Z with la by ring. exact Qa1. }
  assert (Hhigh : a # b < 2 ^ (la - lb + 1)).
  { rewrite (Qmake_Qdiv a b). apply Qlt_shift_div_r; [exact Hb|].
    apply Qlt_le_trans with (2 ^ (la + 1)); [exact Qa2|].
    replace (la + 1)%Z with (la - lb + 1 + lb)%Z by ring. rewrite pow2_add.
    apply Qmult_le_l; [apply pow2_pos | exact Qb1]. }
  destruct (Qle_bool (2 ^ (la - lb)) (a # b)) eqn:E.
  - apply Qle_bool_iff in E. split; [exact E | exact Hhigh].
  - split; [apply Qlt_le_weak, Hlow|].
    replace (la - lb - 1 + 1)%Z with (la - lb)%Z by ring.
    apply Qnot_le_lt. intro C. apply Qle_bool_iff in C. congruence.
Qed.

Lemma binade_unique q k : 2 ^ k <= q -> q < 2 ^ (k + 1) -> binade q = k.
Proof.
  intros H1 H2.
  assert (Hq : 0 < q) by (eapply Qlt_le_trans; [apply pow2_pos | exact H1]).
  destruct (binade_spec q Hq) as [B1 B2].
  assert (binade q < k + 1)%Z by (apply pow2_lt_inv; eapply Qle_lt_trans; eassumption).
  assert (k < binade q + 1)%Z by (apply pow2_lt_inv; eapply Qle_lt_trans; eassumption).
  lia.
Qed.

Lemma binade_lt q k : 0 < q -> q < 2 ^ k -> (binade q < k)%Z.
Proof.
  intros Hq H. destruct (binade_spec q Hq) as [B1 _].
  apply pow2_lt_inv. eapply Qle_lt_trans; eassumption.
Qed.

Lemma binade_mono p q : 0 < p -> p <= q -> (binade p <= binade q)%Z.
Proof.
  intros Hp H.
  destruct (binade_spec p Hp) as [B1 _].
  destruct (binade_spec q (Qlt_le_trans _ _ _ Hp H)) as [_ B2].
  assert (binade p < binade q + 1)%Z; [|lia].
  apply pow2_lt_inv. eapply Qle_lt_trans; [exact B1|]. eapply Qle_lt_trans; eassumption.
Qed.


Lemma rne_cases q :
  let f := Qfloor q in
  (q - inject_Z f < 1 # 2 /\ rne q = f)
  \/ (1 # 2 < q - inject_Z f /\ rne q = (f + 1)%Z)
  \/ (q - inject_Z f == 1 # 2 /\ rne q = if Z.even f then f else (f + 1)%Z).
Proof.
  intro f. unfold rne. fold f.
  destruct (Qcompare_spec (q - inject_Z f) (1 # 2)) as [E|E|E]; auto.
Qed.

Lemma floor_bounds q : inject_Z (Qfloor q) <= q /\ q < inject_Z (Qfloor q) + 1.
Proof.
  split; [apply Qfloor_le|]. pose proof (Qlt_floor q) as H. rewrite inject_Z_plus in H. exact H.
Qed.

Lemma rne_near q : q - (1 # 2) <= inject_Z (rne q) /\ inject_Z (rne q) <= q + (1 # 2).
Proof.
  destruct (floor_bounds q) as [F1 F2].
  destruct (rne_cases q) as [[H E]|[[H E]|[H E]]]; rewrite E.
  - split; lra.
  - rewrite inject_Z_plus. change (inject_Z 1) with 1. split; lra.
  - destruct (Z.even (Qfloor q)).
    + split; lra.
    + rewrite inject_Z_plus. change (inject_Z 1) with 1. split; lra.
Qed.

Lemma rne_floor q : (Qfloor q <= rne q <= Qfloor q + 1)%Z.
Proof.
  destruct (rne_cases q) as [[_ E]|[[_ E]|[_ E]]]; rewrite E; try lia.
  destruct (Z.even (Qfloor q)); lia.
Qed.

Lemma rne_comp p q : p == q -> rne p = rne q.
Proof.
  intros H. unfold rne. rewrite (Qfloor_comp _ _ H).
  assert (E : p - inject_Z (Qfloor q) == q - inject_Z (Qfloor q)) by (rewrite H; reflexivity).
  rewrite (Qcompare_comp _ _ E (1 # 2) (1 # 2) (Qeq_refl _)). reflexivity.
Qed.

Lemma rne_Z n : rne (inject_Z n) = n.
Proof.
  destruct (rne_cases (inject_Z n)) as [[H E]|[[H E]|[H E]]];
    rewrite Qfloor_Z in *; try exact E; exfalso; lra.
Qed.

Lemma rne_mono p q : p <= q -> (rne p <= rne q)%Z.
Proof.
  intros H. pose proof (Qfloor_resp_le _ _ H) as F.
  pose proof (rne_floor p) as Bp. pose proof (rne_floor q) as Bq.
  destruct (Z.eq_dec (Qfloor p) (Qfloor q)) as [E|E]; [|lia].
  destruct (rne_cases p) as [[Hp Ep]|[[Hp Ep]|[Hp Ep]]];
  destruct (rne_cases q) as [[Hq Eq]|[[Hq Eq]|[Hq Eq]]];
    rewrite E in *; rewrite Ep, Eq; try lia; try (exfalso; lra);
    destruct (Z.even (Qfloor q)); try lia; exfalso; lra.
Qed.


Lemma pow2_nz e : ~ 2 ^ e == 0.
Proof. intro E. pose proof (pow2_pos e) as P. rewrite E in P. discriminate P. Qed.

Lemma pow2_half e : 2 ^ (e - 1) == 2 ^ e * (1 # 2).
Proof. rewrite pow2_sub. change (2 ^ 1) with 2. field. Qed.

Lemma round_pos_near q :
  q - 2 ^ (ulp_exp q - 1) <= round_pos q /\ round_pos q <= q + 2 ^ (ulp_exp q - 1).
Proof.
  unfold round_pos. set (e := ulp_exp q).
  pose proof (pow2_pos e) as P. pose proof (pow2_nz e) as N.
  destruct (rne_near (q / 2 ^ e)) as [L U].
  rewrite pow2_half.
  assert (T : q / 2 ^ e * 2 ^ e == q) by (field; exact N).
  set (r := inject_Z (rne (q / 2 ^ e))) in *.
  split.
  - apply Qle_trans with ((q / 2 ^ e - (1 # 2)) * 2 ^ e).
    + rewrite <- T at 1. apply Qle_lteq. right. ring.
    + apply Qmult_le_compat_r; [exact L | apply Qlt_le_weak, P].
  - apply Qle_trans with ((q / 2 ^ e + (1 # 2)) * 2 ^ e).
    + apply Qmult_le_compat_r; [exact U | apply Qlt_le_weak, P].
    + rewrite <- T at 2. apply Qle_lteq. right. ring.
Qed.

Lemma ulp_exp_le q k :
  0 < q -> q < 2 ^ k -> (-1021 <= k)%Z -> (ulp_exp q <= k - 53)%Z.
Proof.
  intros Hq H Hk. pose proof (binade_lt q k Hq H). unfold ulp_exp. lia.
Qed.

Lemma ulp_exp_mono p q : 0 < p -> p <= q -> (ulp_exp p <= ulp_exp q)%Z.
Proof.
  intros Hp H. pose proof (binade_mono p q Hp H). unfold ulp_exp. lia.
Qed.

Lemma round_pos_nonneg q : 0 <= q -> 0 <= round_pos q.
Proof.
  intros H. unfold round_pos. apply Qmult_le_0_compat.
  - change 0 with (inject_Z 0). rewrite <- Zle_Qle. rewrite <- (rne_Z 0).
    apply rne_mono. change (inject_Z 0) with 0.
    apply Qle_shift_div_l; [apply pow2_pos|]. rewrite Qmult_0_l. exact H.
  - apply Qlt_le_weak, pow2_pos.
Qed.

Lemma div_pow2_le p q e : p <= q -> p / 2 ^ e <= q / 2 ^ e.
Proof.
  intros H. apply Qmult_le_compat_r; [exact H|].
  apply Qlt_le_weak, Qinv_lt_0_compat, pow2_pos.
Qed.

Lemma round_pos_mono p q : 0 < p -> p <= q -> round_pos p <= round_pos q.
Proof.
  intros Hp H.
  assert (Hq : 0 < q) by (eapply Qlt_le_trans; eassumption).
  pose proof (ulp_exp_mono p q Hp H) as M.
  destruct (Z.eq_dec (ulp_exp p) (ulp_exp q)) as [E|E].
  - unfold round_pos. rewrite E.
    apply Qmult_le_compat_r; [|apply Qlt_le_weak, pow2_pos].
    rewrite <- Zle_Qle. apply rne_mono, div_pow2_le, H.
  - assert (Lt : (ulp_exp p < ulp_exp q)%Z) by lia. clear E M.
    set (k := binade q).
    assert (Eq : ulp_exp q = (k - 52)%Z) by (unfold ulp_exp in *; fold k; lia).
    apply Qle_trans with (2 ^ k).
    + apply Qle_trans with (2 ^ (ulp_exp p + 53)); [|apply pow2_le; lia].
      unfold round_pos. rewrite (Z.add_comm (ulp_exp p) 53), pow2_add.
      apply Qmult_le_compat_r; [|apply Qlt_le_weak, pow2_pos].
      rewrite <- (pow2_Z 53) by lia. rewrite <- Zle_Qle.
      rewrite <- (rne_Z (2 ^ 53)). apply rne_mono.
      rewrite (pow2_Z 53) by lia.
      apply Qle_shift_div_r; [apply pow2_pos|].
      rewrite <- pow2_add. destruct (binade_spec p Hp) as [_ B].
      apply Qlt_le_weak. eapply Qlt_le_trans; [exact B|].
      apply pow2_le. unfold ulp_exp. lia.
    + unfold round_pos. rewrite Eq.
      replace k with (52 + (k - 52))%Z at 1 by ring. rewrite pow2_add.
      apply Qmult_le_compat_r; [|apply Qlt_le_weak, pow2_pos].
      rewrite <- (pow2_Z 52) by lia. rewrite <- Zle_Qle.
      rewrite <- (rne_Z (2 ^ 52)) at 1. apply rne_mono.
      rewrite (pow2_Z 52) by lia.
      apply Qle_shift_div_l; [apply pow2_pos|].
      rewrite <- pow2_add. replace (52 + (k - 52))%Z with k by ring.
      destruct (binade_spec q Hq) as [B _]. exact B.
Qed.


Lemma round_pos_exact q m e :
  q == inject_Z m * 2 ^ e -> (0 < m < 2 ^ 53)%Z -> (-1074 <= e)%Z -> round_pos q == q.
Proof.
  intros Hq Hm He.
  assert (Hpos : 0 < q).
  { rewrite Hq. apply Qmult_lt_0_compat; [|apply pow2_pos].
    change 0 with (inject_Z 0). rewrite <- Zlt_Qlt. lia. }
  assert (Hlt : q < 2 ^ (53 + e)).
  { rewrite Hq, pow2_add. apply Qmult_lt_r; [apply pow2_pos|].
    rewrite <- (pow2_Z 53) by lia. rewrite <- Zlt_Qlt. lia. }
  pose proof (binade_lt q _ Hpos Hlt) as B.
  assert (U : (ulp_exp q <= e)%Z) by (unfold ulp_exp; lia).
  set (u := ulp_exp q) in *.
  assert (T : q / 2 ^ u == inject_Z (m * 2 ^ (e - u))).
  { rewrite inject_Z_mult, (pow2_Z (e - u)) by lia. rewrite pow2_sub, Hq.
    field; repeat split; apply pow2_nz. }
  unfold round_pos. fold u. rewrite (rne_comp _ _ T), rne_Z.
  rewrite inject_Z_mult, (pow2_Z (e - u)) by lia. rewrite pow2_sub, Hq.
  field; repeat split; apply pow2_nz.
Qed.

Lemma b64_comp p q : p == q -> b64 p = b64 q.
Proof. intros H. unfold b64. rewrite (Qred_complete _ _ H). reflexivity. Qed.

Lemma b64_pos q : 0 < q -> b64 q == round_pos (Qred q).
Proof.
  intros H. unfold b64. rewrite Qred_correct.
  destruct (Qcompare_spec (Qred q) 0) as [E|E|E]; rewrite Qred_correct in E.
  - rewrite E in H. discriminate H.
  - exfalso. lra.
  - reflexivity.
Qed.

Lemma b64_neg q : q < 0 -> b64 q == - round_pos (- Qred q).
Proof.
  intros H. unfold b64. rewrite Qred_correct.
  destruct (Qcompare_spec (Qred q) 0) as [E|E|E]; rewrite Qred_correct in E.
  - rewrite E in H. discriminate H.
  - reflexivity.
  - exfalso. lra.
Qed.

Lemma b64_zero q : q == 0 -> b64 q == 0.
Proof. intros H. rewrite (b64_comp _ _ H). reflexivity. Qed.

Lemma b64_canon q : Qred (b64 q) = b64 q.
Proof. unfold b64. apply Qred_complete, Qred_correct. Qed.

Lemma b64_exact q m e :
  q == inject_Z m * 2 ^ e -> (Z.abs m < 2 ^ 53)%Z -> (-1074 <= e)%Z -> b64 q == q.
Proof.
  intros Hq Hm He.
  destruct (Z.lt_trichotomy m 0) as [N|[Z|P]].
  - assert (Hneg : q < 0).
    { rewrite Hq.
      assert (P : 0 < (- inject_Z m) * 2 ^ e).
      { apply Qmult_lt_0_compat; [|apply pow2_pos].
        rewrite <- inject_Z_opp. change 0 with (inject_Z 0). rewrite <- Zlt_Qlt. lia. }
      lra. }
    rewrite (b64_neg q Hneg).
    rewrite (round_pos_exact (- Qred q) (- m) e); [rewrite Qred_correct; ring| |lia|exact He].
    rewrite Qred_correct, Hq, inject_Z_opp. ring.
  - subst m. assert (E : q == 0) by (rewrite Hq; change (inject_Z 0) with 0; ring).
    rewrite (b64_zero q E), E. reflexivity.
  - assert (Hpos : 0 < q).
    { rewrite Hq. apply Qmult_lt_0_compat; [|apply pow2_pos].
      change 0 with (inject_Z 0). rewrite <- Zlt_Qlt. exact P. }
    rewrite (b64_pos q Hpos).
    rewrite (round_pos_exact (Qred q) m e); [apply Qred_correct| |lia|exact He].
    rewrite Qred_correct. exact Hq.
Qed.

Lemma b64_near q k :
  0 < q -> q < 2 ^ k -> (-1021 <= k)%Z ->
  q - 2 ^ (k - 54) <= b64 q /\ b64 q <= q + 2 ^ (k - 54).
Proof.
  intros Hq H Hk. rewrite (b64_pos q Hq).
  assert (Hq' : 0 < Qred q) by (rewrite Qred_correct; exact Hq).
  assert (H' : Qred q < 2 ^ k) by (rewrite Qred_correct; exact H).
  pose proof (ulp_exp_le _ _ Hq' H' Hk) as U.
  destruct (round_pos_near (Qred q)) as [L R].
  assert (P : 2 ^ (ulp_exp (Qred q) - 1) <= 2 ^ (k - 54)) by (apply pow2_le; lia).
  pose proof (Qred_correct q) as E. split; lra.
Qed.

Lemma b64_nonneg q : 0 <= q -> 0 <= b64 q.
Proof.
  intros H. apply Qle_lteq in H. destruct H as [H|H].
  - rewrite (b64_pos q H). apply round_pos_nonneg. rewrite Qred_correct. lra.
  - rewrite (b64_zero q); [lra | symmetry; exact H].
Qed.

Lemma b64_mono p q : 0 <= p -> p <= q -> b64 p <= b64 q.
Proof.
  intros Hp H. apply Qle_lteq in Hp. destruct Hp as [Hp|Hp].
  - rewrite (b64_pos p Hp), (b64_pos q) by lra.
    apply round_pos_mono; rewrite !Qred_correct; assumption.
  - rewrite (b64_zero p) by (symmetry; exact Hp). apply b64_nonneg. lra.
Qed.

End FloatFacts.

(** * The gradient colour *)

Section ColorFacts.
Import Float FloatFacts.
Local Open Scope Q_scope.

Lemma Qfloor_unique y n : inject_Z n <= y -> y < inject_Z n + 1 -> Qfloor y = n.
Proof.
  intros L U. destruct (floor_bounds y) as [F1 F2].
  assert (A : inject_Z n < inject_Z (Qfloor y + 1)) by (rewrite inject_Z_plus; change (inject_Z 1) with 1; lra).
  assert (B : inject_Z (Qfloor y) < inject_Z (n + 1)) by (rewrite inject_Z_plus; change (inject_Z 1) with 1; lra).
  rewrite <- Zlt_Qlt in A, B. lia.
Qed.

Lemma py_int_floor x : 0 <= x -> py_int x = Qfloor x.
Proof.
  destruct x as [a b]. intros H. unfold py_int, Qfloor. cbn [Qnum Qden].
  apply Z.quot_div_nonneg; [|reflexivity].
  unfold Qle in H. simpl in H. lia.
Qed.

Lemma inject_Z_nz f : f <> 0%Z -> ~ inject_Z f == 0.
Proof. intros H E. apply H. apply (proj1 (inject_Z_injective f 0)). exact E. Qed.

Lemma inject_Z_pos f : (0 < f)%Z -> 0 < inject_Z f.
Proof. intros H. change 0 with (inject_Z 0). rewrite <- Zlt_Qlt. exact H. Qed.

Lemma of_int_255 : of_int 255 = 255.
Proof. vm_compute. reflexivity. Qed.

Lemma color_unfold i f :
  color i f = py_int (b64 (255 * b64 (inject_Z i / inject_Z f))).
Proof. unfold color, mul, true_div. rewrite of_int_255. reflexivity. Qed.

Lemma color_floor_b64 i f :
  (0 <= i)%Z -> (0 < f)%Z ->
  color i f = Qfloor (b64 (255 * b64 (inject_Z i / inject_Z f))).
Proof.
  intros Hi Hf. rewrite color_unfold. apply py_int_floor.
  apply b64_nonneg. apply Qmult_le_0_compat; [discriminate|].
  apply b64_nonneg. apply Qle_shift_div_l.
  - change 0 with (inject_Z 0). rewrite <- Zlt_Qlt. exact Hf.
  - rewrite Qmult_0_l. change 0 with (inject_Z 0). rewrite <- Zle_Qle. exact Hi.
Qed.

Lemma color_mono i j f :
  (0 < f)%Z -> (0 <= i <= j)%Z -> (color i f <= color j f)%Z.
Proof.
  intros Hf Hij. rewrite !color_floor_b64 by lia.
  assert (F : 0 < inject_Z f) by (change 0 with (inject_Z 0); rewrite <- Zlt_Qlt; exact Hf).
  assert (Qi : 0 <= inject_Z i / inject_Z f).
  { apply Qle_shift_div_l; [exact F|]. rewrite Qmult_0_l.
    change 0 with (inject_Z 0). rewrite <- Zle_Qle. lia. }
  assert (Qij : inject_Z i / inject_Z f <= inject_Z j / inject_Z f).
  { apply Qmult_le_compat_r; [rewrite <- Zle_Qle; lia|].
    apply Qlt_le_weak, Qinv_lt_0_compat, F. }
  apply Qfloor_resp_le. apply b64_mono.
  - apply Qmult_le_0_compat; [discriminate | apply b64_nonneg, Qi].
  - apply Qmult_le_l; [reflexivity|]. apply b64_mono; assumption.
Qed.

Lemma color_0 f : color 0 f = 0%Z.
Proof.
  rewrite color_unfold.
  rewrite (b64_comp (inject_Z 0 / inject_Z f) 0) by (unfold Qdiv; change (inject_Z 0) with 0; ring).
  reflexivity.
Qed.

Lemma color_full f : (0 < f)%Z -> color f f = 255%Z.
Proof.
  intros Hf. rewrite color_unfold.
  rewrite (b64_comp (inject_Z f / inject_Z f) 1).
  - vm_compute. reflexivity.
  - field. apply inject_Z_nz. lia.
Qed.

Lemma color_range i f : (0 < f)%Z -> (0 <= i <= f)%Z -> (0 <= color i f <= 255)%Z.
Proof.
  intros Hf Hi. rewrite <- (color_0 f) at 1. rewrite <- (color_full f Hf).
  split; apply color_mono; lia.
Qed.

Lemma color_255_table :
  forallb (fun n => Z.eqb (color n 255) n) (map Z.of_nat (seq 0 255)) = true.
Proof. vm_compute. reflexivity. Qed.

Lemma color_255 n : (0 <= n < 255)%Z -> color n 255 = n.
Proof.
  intros Hn. pose proof color_255_table as T.
  rewrite forallb_forall in T. apply Z.eqb_eq, T.
  apply in_map_iff. exists (Z.to_nat n). split; [lia|]. apply in_seq. lia.
Qed.


Lemma color_exact_multiple i f n :
  (0 < f)%Z -> (0 <= n < 255)%Z -> (255 * i = n * f)%Z -> color i f = n.
Proof.
  intros Hf Hn E. rewrite <- (color_255 n Hn). rewrite !color_unfold.
  rewrite (b64_comp (inject_Z i / inject_Z f) (inject_Z n / inject_Z 255)); [reflexivity|].
  assert (Q : 255 * inject_Z i == inject_Z n * inject_Z f).
  { rewrite <- !inject_Z_mult. rewrite <- E. reflexivity. }
  pose proof (inject_Z_nz f ltac:(lia)) as Nf.
  apply Qeq_trans with (255 * inject_Z i / (255 * inject_Z f)).
  - field. exact Nf.
  - rewrite Q. change (inject_Z 255) with 255. field. exact Nf.
Qed.

Lemma color_floor i f :
  (0 <= i < f)%Z -> (f <= 2 ^ 45)%Z -> color i f = (255 * i / f)%Z.
Proof.
  intros Hi Hf.
  assert (Hf0 : (0 < f)%Z) by lia.
  pose proof (Z.div_mod (255 * i) f ltac:(lia)) as DM.
  pose proof (Z.mod_pos_bound (255 * i) f Hf0) as MB.
  set (n := (255 * i / f)%Z) in *. set (r := ((255 * i) mod f)%Z) in *.
  assert (Hn : (0 <= n < 255)%Z).
  { split; [apply Z.div_pos; lia|]. apply Z.div_lt_upper_bound; lia. }
  destruct (Z.eq_dec r 0%Z) as [R0|R0].
  { apply color_exact_multiple; lia. }
  rewrite color_floor_b64 by lia.
  pose proof (inject_Z_pos f Hf0) as F. pose proof (inject_Z_nz f ltac:(lia)) as Nf.
  set (q := inject_Z i / inject_Z f).
  set (D := / inject_Z f).
  assert (FD : inject_Z f * D == 1) by (unfold D; field; exact Nf).
  assert (HD : (1 # 35184372088832) <= D).
  { unfold D. apply Qle_shift_inv_l; [exact F|].
    assert (inject_Z f <= inject_Z (2 ^ 45)) by (rewrite <- Zle_Qle; exact Hf).
    change (inject_Z (2 ^ 45)) with (35184372088832 # 1) in H. lra. }
  set (w := inject_Z r * D).
  assert (Hw : D <= w /\ w <= 1 - D).
  { unfold w. split.
    - rewrite <- (Qmult_1_l D) at 1.
      apply Qmult_le_compat_r; [|unfold D; apply Qlt_le_weak, Qinv_lt_0_compat, F].
      change 1 with (inject_Z 1). rewrite <- Zle_Qle. lia.
    - apply Qle_trans with (inject_Z (f - 1) * D).
      + apply Qmult_le_compat_r; [|unfold D; apply Qlt_le_weak, Qinv_lt_0_compat, F].
        rewrite <- Zle_Qle. lia.
      + unfold Z.sub. rewrite inject_Z_plus. change (inject_Z (- (1))) with (- (1)).
        apply Qle_lteq. right.
        apply Qeq_trans with (inject_Z f * D - D); [ring | rewrite FD; reflexivity]. }
  assert (Hq : 255 * q == inject_Z n + w).
  { unfold q, w, Qdiv. fold D.
    assert (Q : 255 * inject_Z i == inject_Z f * inject_Z n + inject_Z r).
    { rewrite <- !inject_Z_mult, <- inject_Z_plus. change 255 with (inject_Z 255).
      rewrite <- inject_Z_mult. rewrite DM. reflexivity. }
    rewrite Qmult_assoc, Q.
    apply Qeq_trans with (inject_Z n * (inject_Z f * D) + inject_Z r * D); [ring|].
    rewrite FD. ring. }
  assert (Nn : 0 <= inject_Z n /\ inject_Z n <= 254).
  { change 0 with (inject_Z 0). change 254 with (inject_Z 254). rewrite <- !Zle_Qle. lia. }
  assert (q0 : 0 < q /\ q < 1) by (split; lra).
  destruct (b64_near q 0 (proj1 q0) (proj2 q0) ltac:(lia)) as [X1 X2].
  change (2 ^ (0 - 54)) with (1 # 18014398509481984) in X1, X2.
  set (x := b64 q) in *.
  assert (p0 : 0 < 255 * x /\ 255 * x < 2 ^ 8).
  { change (2 ^ 8) with 256. split; lra. }
  destruct (b64_near (255 * x) 8 (proj1 p0) (proj2 p0) ltac:(lia)) as [Y1 Y2].
  change (2 ^ (8 - 54)) with (1 # 70368744177664) in Y1, Y2.
  set (y := b64 (255 * x)) in *.
  apply Qfloor_unique; lra.
Qed.

End ColorFacts.

(** * The crop *)

Section CropFacts.
Import Float FloatFacts.
Local Open Scope Q_scope.

Lemma half_pow : 2 ^ (-1) == 1 # 2.
Proof. reflexivity. Qed.

Lemma of_int_exact n : (Z.abs n < 2 ^ 53)%Z -> of_int n == inject_Z n.
Proof.
  intros H. unfold of_int. apply (b64_exact _ n 0); [|exact H|lia].
  change (2 ^ 0) with 1. ring.
Qed.

Lemma true_div_2_exact a :
  (Z.abs a < 2 ^ 53)%Z -> true_div a 2 == inject_Z a / 2.
Proof.
  intros H. unfold true_div. change (inject_Z 2) with 2.
  apply (b64_exact _ a (-1)); [|exact H|lia].
  rewrite half_pow. field.
Qed.

Lemma coord_exact a o :
  (Z.abs a <= 2 ^ 51)%Z -> (Z.abs o <= 2 ^ 50)%Z ->
  add (true_div a 2) (of_int o) == inject_Z (a + 2 * o) / 2.
Proof.
  intros Ha Ho. unfold add.
  assert (E : true_div a 2 + of_int o == inject_Z (a + 2 * o) / 2).
  { rewrite true_div_2_exact, of_int_exact by lia.
    rewrite inject_Z_plus, inject_Z_mult. change (inject_Z 2) with 2. field. }
  rewrite (b64_comp _ _ E).
  apply (b64_exact _ (a + 2 * o) (-1)); [|lia|lia].
  rewrite half_pow. field.
Qed.

Lemma rne_half n : rne (inject_Z n / 2) = round_half n.
Proof.
  unfold round_half.
  assert (F : Qfloor (inject_Z n / 2) = (n / 2)%Z) by (symmetry; apply (Zdiv_Qdiv n 2)).
  pose proof (Z.div_mod n 2 ltac:(lia)) as DM.
  assert (Q : inject_Z n == 2 * inject_Z (n / 2) + inject_Z (n mod 2)).
  { rewrite DM at 1. rewrite inject_Z_plus, inject_Z_mult. reflexivity. }
  change (inject_Z 2) with 2 in Q.
  rewrite Zeven_mod.
  set (N := inject_Z n) in *. set (K := inject_Z (n / 2)) in *.
  pose proof (Z.mod_pos_bound n 2 ltac:(lia)) as MB.
  destruct (rne_cases (N / 2)) as [[H E]|[[H E]|[H E]]];
    rewrite F in *; rewrite E; clear E; fold K in H; clearbody N K;
    unfold Qdiv in H; change (/ 2) with (1 # 2) in H.
  - destruct (Z.eq_dec (n mod 2) 0%Z) as [M|M]; [rewrite M; reflexivity|].
    exfalso. assert (M1 : (n mod 2 = 1)%Z) by lia. rewrite M1 in Q.
    change (inject_Z 1) with 1 in Q. lra.
  - exfalso. assert (inject_Z (n mod 2) <= 1).
    { change 1 with (inject_Z 1). rewrite <- Zle_Qle. lia. }
    lra.
  - destruct (Z.eq_dec (n mod 2) 0%Z) as [M|M].
    + exfalso. rewrite M in Q. change (inject_Z 0) with 0 in Q. lra.
    + assert (M1 : (n mod 2 = 1)%Z) by lia. rewrite M1. reflexivity.
Qed.

Lemma py_round_coord a o :
  (Z.abs a <= 2 ^ 51)%Z -> (Z.abs o <= 2 ^ 50)%Z ->
  py_round (add (true_div a 2) (of_int o)) = round_half (a + 2 * o).
Proof.
  intros Ha Ho. unfold py_round.
  rewrite (rne_comp _ _ (coord_exact a o Ha Ho)). apply rne_half.
Qed.


Lemma coord_le a b o :
  (Z.abs a <= 2 ^ 51)%Z -> (Z.abs b <= 2 ^ 51)%Z -> (Z.abs o <= 2 ^ 50)%Z -> (a <= b)%Z ->
  add (true_div a 2) (of_int o) <= add (true_div b 2) (of_int o).
Proof.
  intros Ha Hb Ho Hab. rewrite !coord_exact by assumption.
  apply Qmult_le_compat_r; [|discriminate]. rewrite <- Zle_Qle. lia.
Qed.

Local Open Scope Z_scope.

Lemma round_half_even n : Z.even n = true -> round_half n = n / 2.
Proof. intros H. unfold round_half. rewrite H. reflexivity. Qed.

Lemma round_half_shift n c :
  Z.even n = true \/ Z.even c = true -> round_half (n + 2 * c) = round_half n + c.
Proof.
  intros H. unfold round_half.
  assert (E : Z.even (n + 2 * c) = Z.even n).
  { rewrite Z.even_add, Z.even_mul. simpl. destruct (Z.even n); reflexivity. }
  assert (D : (n + 2 * c) / 2 = n / 2 + c).
  { rewrite (Z.mul_comm 2 c), Z.div_add by lia. reflexivity. }
  rewrite E, D. destruct (Z.even n) eqn:En; [reflexivity|].
  destruct H as [H|H]; [discriminate|].
  rewrite Z.even_add, H. destruct (Z.even (n / 2)); simpl; lia.
Qed.

Lemma round_half_mono n m : n <= m -> round_half n <= round_half m.
Proof.
  intros H. rewrite <- !rne_half. apply rne_mono.
  apply Qmult_le_compat_r; [|discriminate]. rewrite <- Zle_Qle. exact H.
Qed.

(** The integer box Pillow crops to, for sizes and offsets that binary64
    holds exactly. *)
Lemma crop_box_round W H ox oy :
  0 <= W <= 2 ^ 50 -> 0 <= H <= 2 ^ 50 -> Z.abs ox <= 2 ^ 50 -> Z.abs oy <= 2 ^ 50 ->
  let cs := Z.min W H in
  round_box (crop_box (W, H) ox oy)
  = (round_half (W - cs + 2 * ox), round_half (H - cs + 2 * oy),
     round_half (W + cs + 2 * ox), round_half (H + cs + 2 * oy)).
Proof.
  intros HW HH Hox Hoy cs. unfold round_box, crop_box. fold cs.
  rewrite !py_round_coord by lia. reflexivity.
Qed.

Lemma Image_crop_square image W H ox oy :
  size image = (W, H) ->
  0 <= W <= 2 ^ 50 -> 0 <= H <= 2 ^ 50 -> Z.abs ox <= 2 ^ 50 -> Z.abs oy <= 2 ^ 50 ->
  let b := round_box (crop_box (W, H) ox oy) in
  Image_crop image (crop_box (W, H) ox oy)
  = if crop_permitted (W, H) b then Some (core_crop image b) else None.
Proof.
  intros Hs HW HH Hox Hoy b. unfold Image_crop, crop_permitted. rewrite Hs. subst b.
  pose proof (coord_le (W - Z.min W H) (W + Z.min W H) ox ltac:(lia) ltac:(lia) Hox ltac:(lia)) as Lx.
  pose proof (coord_le (H - Z.min W H) (H + Z.min W H) oy ltac:(lia) ltac:(lia) Hoy ltac:(lia)) as Ly.
  unfold crop_box in *.
  destruct (Qlt_le_dec _ _) as [C|_]; [exfalso; revert C; apply Qle_not_lt, Lx|].
  destruct (Qlt_le_dec _ _) as [C|_]; [exfalso; revert C; apply Qle_not_lt, Ly|].
  destruct (crop_raises _); reflexivity.
Qed.

End CropFacts.

(** * Claims about the crop *)

Section CropClaims.

Lemma size_convert im : 
  (width (Image_convert_RGBA im), height (Image_convert_RGBA im)) = size im.
Proof. destruct im; reflexivity. Qed.

Lemma crop_square_eq image W H ox oy :
  size image = (W, H) ->
  0 <= W <= 2 ^ 50 -> 0 <= H <= 2 ^ 50 -> Z.abs ox <= 2 ^ 50 -> Z.abs oy <= 2 ^ 50 ->
  crop image true ox oy
  = if crop_permitted (W, H) (round_box (crop_box (W, H) ox oy))
    then Some (Image_convert_RGBA (core_crop image (round_box (crop_box (W, H) ox oy))))
    else None.
Proof.
  intros Hs HW HH Hox Hoy. unfold crop. rewrite Hs.
  rewrite (Image_crop_square image W H ox oy Hs HW HH Hox Hoy). cbv zeta.
  destruct (crop_permitted _); reflexivity.
Qed.

Lemma round_half_near n : n / 2 <= round_half n <= n / 2 + 1.
Proof.
  unfold round_half. destruct (Z.even n); [lia|]. destruct (Z.even (n / 2)); lia.
Qed.

Lemma MAX_IMAGE_PIXELS_value : MAX_IMAGE_PIXELS = 89478485.
Proof. reflexivity. Qed.

Lemma crop_permitted_intro W H x0 y0 x1 y1 :
  0 <= W -> 0 <= H ->
  W - (2 ^ 31 - 1) <= x0 -> H - (2 ^ 31 - 1) <= y0 ->
  x0 <= x1 <= 2 ^ 31 - 1 -> y0 <= y1 <= 2 ^ 31 - 1 ->
  Z.max 1 (x1 - x0) * Z.max 1 (y1 - y0) <= 2 * MAX_IMAGE_PIXELS ->
  crop_permitted (W, H) (x0, y0, x1, y1) = true.
Proof.
  intros HW HH Hx0 Hy0 Hx1 Hy1 Ha.
  assert (P31 : 2 ^ 31 = 2147483648) by reflexivity.
  unfold crop_permitted, crop_raises, paste_defined, bomb, fits_c_int.
  cbn [fst snd]. rewrite !Z.abs_eq by lia.
  rewrite !andb_true_iff, negb_true_iff, orb_false_iff, negb_false_iff,
    !andb_true_iff, Z.ltb_ge, !Z.leb_le. lia.
Qed.

Lemma crop_raises_not_permitted sz b :
  crop_raises b = true -> crop_permitted sz b = false.
Proof. intros E. unfold crop_permitted. rewrite E. reflexivity. Qed.

(** A crop box of an image whose smaller side is at most 13376 pixels,
    with sides and offsets up to [2^30], is within Pillow's limits. *)
Lemma crop_permitted_moderate W H ox oy :
  0 <= W <= 2 ^ 30 -> 0 <= H <= 2 ^ 30 -> Z.abs ox <= 2 ^ 30 -> Z.abs oy <= 2 ^ 30 ->
  Z.min W H <= 13376 ->
  crop_permitted (W, H) (round_box (crop_box (W, H) ox oy)) = true.
Proof.
  intros HW HH Hox Hoy Hc.
  rewrite (crop_box_round W H ox oy ltac:(lia) ltac:(lia) ltac:(lia) ltac:(lia)).
  set (cs := Z.min W H) in *.
  pose proof (round_half_near (W - cs + 2 * ox)) as A0.
  pose proof (round_half_near (W + cs + 2 * ox)) as A1.
  pose proof (round_half_near (H - cs + 2 * oy)) as B0.
  pose proof (round_half_near (H + cs + 2 * oy)) as B1.
  pose proof (round_half_mono (W - cs + 2 * ox) (W + cs + 2 * ox) ltac:(lia)) as Mx.
  pose proof (round_half_mono (H - cs + 2 * oy) (H + cs + 2 * oy) ltac:(lia)) as My.
  assert (Dx : (W + cs + 2 * ox) / 2 = (W - cs + 2 * ox) / 2 + cs).
  { replace (W + cs + 2 * ox) with (W - cs + 2 * ox + cs * 2) by ring.
    apply Z.div_add. lia. }
  assert (Dy : (H + cs + 2 * oy) / 2 = (H - cs + 2 * oy) / 2 + cs).
  { replace (H + cs + 2 * oy) with (H - cs + 2 * oy + cs * 2) by ring.
    apply Z.div_add. lia. }
  assert (P30 : 2 ^ 30 = 1073741824) by reflexivity.
  assert (P31 : 2 ^ 31 = 2147483648) by reflexivity.
  assert (Lx : (W - cs + 2 * ox) / 2 = (W - cs) / 2 + ox).
  { rewrite (Z.mul_comm 2 ox). apply Z.div_add. lia. }
  assert (Ly : (H - cs + 2 * oy) / 2 = (H - cs) / 2 + oy).
  { rewrite (Z.mul_comm 2 oy). apply Z.div_add. lia. }
  assert (Hx : 0 <= (W - cs) / 2 <= 536870912).
  { split; [apply Z.div_pos | apply Z.div_le_upper_bound]; lia. }
  assert (Hy : 0 <= (H - cs) / 2 <= 536870912).
  { split; [apply Z.div_pos | apply Z.div_le_upper_bound]; lia. }
  set (x0 := round_half (W - cs + 2 * ox)) in *. set (x1 := round_half (W + cs + 2 * ox)) in *.
  set (y0 := round_half (H - cs + 2 * oy)) in *. set (y1 := round_half (H + cs + 2 * oy)) in *.
  assert (Ex : 1 <= Z.max 1 (x1 - x0) <= 13377) by lia.
  assert (Ey : 1 <= Z.max 1 (y1 - y0) <= 13377) by lia.
  assert (Ha : Z.max 1 (x1 - x0) * Z.max 1 (y1 - y0) <= 2 * MAX_IMAGE_PIXELS)
    by (rewrite MAX_IMAGE_PIXELS_value; nia).
  assert (Qx : W - (W - cs) / 2 <= 536877601).
  { pose proof (Z.div_mod (W - cs) 2 ltac:(lia)) as D.
    pose proof (Z.mod_pos_bound (W - cs) 2 ltac:(lia)). lia. }
  assert (Qy : H - (H - cs) / 2 <= 536877601).
  { pose proof (Z.div_mod (H - cs) 2 ltac:(lia)) as D.
    pose proof (Z.mod_pos_bound (H - cs) 2 ltac:(lia)). lia. }
  apply crop_permitted_intro; lia.
Qed.

(** C2, as the code has it: a square crop whose box leaves the image is
    not clamped.  Where the rounded box is within Pillow's limits (its
    coordinates and the paste corners fit a C [int], its area is at most
    twice [MAX_IMAGE_PIXELS]; so for every image whose smaller side is at
    most 13376 pixels, with sides and offsets up to [2^30]) the crop does
    not fail: the result has the size of the rounded box, a cell whose
    source position lies in the image holds the (RGBA-converted) source
    pixel, and every other cell holds the zero pixel of the image's mode
    (black, or entry 0 of the palette).  With a box beyond the pixel
    limit or a coordinate beyond the C [int] range [Image.crop] raises.
    Sizes and offsets are those binary64 holds exactly. *)
Theorem crop_out_of_bounds_zero_fill image W H ox oy :
  size image = (W, H) ->
  0 <= W <= 2 ^ 50 -> 0 <= H <= 2 ^ 50 -> Z.abs ox <= 2 ^ 50 -> Z.abs oy <= 2 ^ 50 ->
  let b := round_box (crop_box (W, H) ox oy) in
  (Z.min W H <= 13376 -> W <= 2 ^ 30 -> H <= 2 ^ 30 ->
   Z.abs ox <= 2 ^ 30 -> Z.abs oy <= 2 ^ 30 -> crop_permitted (W, H) b = true)
  /\ (crop_raises b = true -> crop image true ox oy = None)
  /\ (crop_permitted (W, H) b = true ->
      exists r x0 y0 x1 y1,
        crop image true ox oy = Some r
        /\ b = (x0, y0, x1, y1)
        /\ width r = x1 - x0 /\ height r = y1 - y0
        /\ forall x y,
             let src := Image_convert_RGBA image in
             (inside src (x + x0) (y + y0) = true -> px r x y = px src (x + x0) (y + y0))
             /\ (inside src (x + x0) (y + y0) = false -> px r x y = zero_fill image)).
Proof.
  intros Hs HW HH Hox Hoy b.
  pose proof (crop_square_eq image W H ox oy Hs HW HH Hox Hoy) as C. fold b in C.
  split; [|split].
  - intros Hc HW' HH' Hox' Hoy'. apply crop_permitted_moderate; lia.
  - intros P. rewrite C, (crop_raises_not_permitted (W, H) b P). reflexivity.
  - intros P. rewrite P in C.
    pose proof (crop_box_round W H ox oy HW HH Hox Hoy) as B. cbv zeta in B. fold b in B.
    pose proof (round_half_mono (W - Z.min W H + 2 * ox) (W + Z.min W H + 2 * ox)
                  ltac:(lia)) as Mx.
    pose proof (round_half_mono (H - Z.min W H + 2 * oy) (H + Z.min W H + 2 * oy)
                  ltac:(lia)) as My.
    eexists _, _, _, _, _. split; [exact C|]. split; [exact B|]. rewrite B.
    destruct image as [m|m|m|m pal];
      cbn [core_crop Image_convert_RGBA raster_crop width height px zero_fill];
      (split; [lia|]); (split; [lia|]); intros x y; cbv zeta; unfold inside;
      cbn [width height px]; split; intros E; rewrite E; reflexivity.
Qed.

Lemma crop_out_of_bounds_zero_fill_witness :
  exists r x0 y0 x1 y1,
    crop (sample_palette 4 4) true 2 0 = Some r
    /\ round_box (crop_box (4, 4) 2 0) = (x0, y0, x1, y1)
    /\ width r = x1 - x0 /\ height r = y1 - y0
    /\ forall x y,
         let src := Image_convert_RGBA (sample_palette 4 4) in
         (inside src (x + x0) (y + y0) = true -> px r x y = px src (x + x0) (y + y0))
         /\ (inside src (x + x0) (y + y0) = false ->
             px r x y = zero_fill (sample_palette 4 4)).
Proof.
  apply (crop_out_of_bounds_zero_fill (sample_palette 4 4) 4 4 2 0);
    [reflexivity | simpl; lia | simpl; lia | simpl; lia | simpl; lia | reflexivity].
Defined.

(** C2 fails as stated: with offset 2 the box of a 4x4 image is
    [(2, 0, 6, 4)]; the crop keeps all four columns and fills the last two
    with zero pixels (with entry 0 of the palette for a palette image),
    where clamping would keep two columns.  With offset [2^40] the crop
    raises. *)
Lemma crop_not_clamped :
  crop (sample_rgb 4 4) true 2 0 <> clamped_crop (sample_rgb 4 4) 2 0
  /\ round_box (crop_box (4, 4) 2 0) = (2, 0, 6, 4)
  /\ (width <$> crop (sample_rgb 4 4) true 2 0) = Some 4
  /\ (width <$> clamped_crop (sample_rgb 4 4) 2 0) = Some 2
  /\ (r ← crop (sample_rgb 4 4) true 2 0; getpixel r 3 0) = Some (RGBA 0 0 0 255)
  /\ (r ← crop (sample_palette 4 4) true 2 0; getpixel r 3 0) = Some (RGBA 200 0 0 255)
  /\ crop (sample_rgb 4 4) true (2 ^ 40) 0 = None.
Proof.
  assert (A : (width <$> crop (sample_rgb 4 4) true 2 0) = Some 4) by (vm_compute; reflexivity).
  assert (B : (width <$> clamped_crop (sample_rgb 4 4) 2 0) = Some 2) by (vm_compute; reflexivity).
  split; [intros E; rewrite E in A; rewrite A in B; discriminate B|].
  split; [vm_compute; reflexivity|]. split; [exact A|]. split; [exact B|].
  split; [vm_compute; reflexivity|]. split; vm_compute; reflexivity.
Qed.

(** C3, as the code has it: each box coordinate is the float midpoint plus
    the offset, rounded by Pillow to the nearest integer with ties to
    even.  Where the crop size is even or the margins [W - cropSize] and
    [H - cropSize] are, the box is [cropSize] wide and high; an even margin
    is halved exactly. *)
Theorem crop_box_nearest_even W H ox oy :
  0 <= W <= 2 ^ 50 -> 0 <= H <= 2 ^ 50 -> Z.abs ox <= 2 ^ 50 -> Z.abs oy <= 2 ^ 50 ->
  let cs := Z.min W H in
  Z.even cs = true \/ (Z.even (W - cs) = true /\ Z.even (H - cs) = true) ->
  let x0 := round_half (W - cs + 2 * ox) in
  let y0 := round_half (H - cs + 2 * oy) in
  round_box (crop_box (W, H) ox oy) = (x0, y0, x0 + cs, y0 + cs)
  /\ (Z.even (W - cs) = true -> x0 = (W - cs) / 2 + ox)
  /\ (Z.even (H - cs) = true -> y0 = (H - cs) / 2 + oy).
Proof.
  intros HW HH Hox Hoy cs Hev x0 y0.
  rewrite (crop_box_round W H ox oy HW HH Hox Hoy). fold cs.
  assert (Ex : Z.even (W - cs + 2 * ox) = Z.even (W - cs)).
  { rewrite Z.even_add, Z.even_mul. simpl. destruct (Z.even (W - cs)); reflexivity. }
  assert (Ey : Z.even (H - cs + 2 * oy) = Z.even (H - cs)).
  { rewrite Z.even_add, Z.even_mul. simpl. destruct (Z.even (H - cs)); reflexivity. }
  split; [|split].
  - replace (W + cs + 2 * ox) with (W - cs + 2 * ox + 2 * cs) by ring.
    replace (H + cs + 2 * oy) with (H - cs + 2 * oy + 2 * cs) by ring.
    rewrite (round_half_shift (W - cs + 2 * ox) cs), (round_half_shift (H - cs + 2 * oy) cs);
      [reflexivity| |].
    + rewrite Ey. destruct Hev as [E|[_ E]]; auto.
    + rewrite Ex. destruct Hev as [E|[E _]]; auto.
  - intros E. unfold x0. rewrite round_half_shift by auto.
    rewrite round_half_even by exact E. reflexivity.
  - intros E. unfold y0. rewrite round_half_shift by auto.
    rewrite round_half_even by exact E. reflexivity.
Qed.

Lemma crop_box_nearest_even_witness :
  round_box (crop_box (5, 2) 0 0) = (2, 0, 2 + 2, 0 + 2)
  /\ (Z.even (5 - 2) = true -> 2 = (5 - 2) / 2 + 0)
  /\ (Z.even (2 - 2) = true -> 0 = (2 - 2) / 2 + 0).
Proof.
  apply (crop_box_nearest_even 5 2 0 0); [lia | lia | simpl; lia | simpl; lia |].
  left. reflexivity.
Defined.

(** C3 fails as stated: for a 5x2 image the left edge is [round(1.5) = 2],
    not [floor(3 / 2) = 1]. *)
Lemma crop_box_not_truncated :
  let '(x0, _, _, _) := round_box (crop_box (5, 2) 0 0) in
  x0 = 2 /\ (5 - Z.min 5 2) / 2 + 0 = 1 /\ x0 <> (5 - Z.min 5 2) / 2 + 0.
Proof. vm_compute. repeat split; discriminate. Qed.

(** C7, as the code has it: without squaring, the image keeps its size
    and content; the conversion to RGBA replicates grey and makes images
    without alpha opaque, it leaves an RGBA image as it is, alpha
    included, and it gives a palette image the palette entry of each
    index. *)
Theorem crop_no_square_identity image ox oy :
  exists r,
    crop image false ox oy = Some r
    /\ (width r, height r) = size image
    /\ match image with
       | ImL m => forall x y, px r x y = RGBA (px m x y) (px m x y) (px m x y) 255
       | ImRGB m =>
           forall x y,
             px r x y = RGBA (rgb_r (px m x y)) (rgb_g (px m x y)) (rgb_b (px m x y)) 255
       | ImRGBA m => forall x y, px r x y = px m x y
       | ImP m palette => forall x y, px r x y = palette (px m x y)
       end.
Proof.
  exists (Image_convert_RGBA image). split; [reflexivity|].
  split; [apply size_convert|]. destruct image; intros; reflexivity.
Qed.

(** C7 fails as stated: a transparent RGBA pixel is still transparent
    after the crop phase, not opaque. *)
Lemma crop_keeps_existing_alpha :
  exists r p,
    crop (sample_rgba 1 1 0) false 0 0 = Some r
    /\ getpixel r 0 0 = Some p
    /\ alpha p = 0 /\ alpha p <> 255.
Proof.
  eexists _, _. split; [reflexivity|]. split; [reflexivity|].
  split; [reflexivity | discriminate].
Qed.

End CropClaims.

(** * The mask *)

Section MaskFacts.
Context {R : Rasterizer}.

Lemma draw_shape_spec shape b c m :
  draw_shape shape b c m
  = if inverted b then None else Some (fill_where (covers shape b) c m).
Proof.
  unfold draw_shape, Draw_ellipse, Draw_rectangle, covers.
  destruct (String.eqb shape "circle"); destruct (inverted b); reflexivity.
Qed.

Lemma foldM_app {A B} (f : A -> B -> option A) l1 l2 a :
  foldM f a (l1 ++ l2) = match foldM f a l1 with Some a' => foldM f a' l2 | None => None end.
Proof.
  revert a. induction l1 as [|b l1 IH]; intros a; simpl; [reflexivity|].
  destruct (f a b); [apply IH | reflexivity].
Qed.

Lemma gradient_as_layers shape feather solid m l :
  foldM (gradient_step shape feather solid) m l
  = draw_all shape m (map (layer feather solid) l).
Proof.
  unfold draw_all. revert m. induction l as [|i l IH]; intros m; simpl; [reflexivity|].
  unfold gradient_step at 1. unfold layer at 1 2. cbn [fst snd].
  destruct (draw_shape shape _ _ m); [apply IH | reflexivity].
Qed.

Lemma buildMask_as_layers W H feather shape pad :
  buildMask (W, H) feather shape pad
  = draw_all shape (Image_new_L (W, H) 0) (mask_layers feather (solid_shape_box pad W H)).
Proof.
  unfold buildMask, mask_layers, draw_all. cbn [Image_new_L width height fst snd].
  rewrite foldM_app, gradient_as_layers. unfold draw_all.
  destruct (foldM _ _ _) as [r|]; [|reflexivity]. simpl.
  destruct (draw_shape shape _ 255 r); reflexivity.
Qed.

Lemma paint_app shape l1 l2 v x y :
  paint shape (l1 ++ l2) v x y = paint shape l2 (paint shape l1 v x y) x y.
Proof.
  revert v. induction l1 as [|[b c] l1 IH]; intros v; simpl; [reflexivity | apply IH].
Qed.

Lemma draw_all_Some shape layers m m' :
  draw_all shape m layers = Some m' ->
  width m' = width m /\ height m' = height m
  /\ forall x y, px m' x y = paint shape layers (px m x y) x y.
Proof.
  unfold draw_all. revert m. induction layers as [|[b c] layers IH]; intros m E; simpl in E.
  - injection E as <-. auto.
  - rewrite draw_shape_spec in E. destruct (inverted b); [discriminate|].
    destruct (IH _ E) as (Hw & Hh & Hp). cbn [fill_where width height px] in *.
    split; [exact Hw|]. split; [exact Hh|]. exact Hp.
Qed.

Lemma draw_all_ok shape layers m :
  Forall (fun l => inverted (fst l) = false) layers ->
  exists m', draw_all shape m layers = Some m'.
Proof.
  unfold draw_all. intros F. revert m. induction F as [|[b c] layers Hb F IH]; intros m; simpl.
  - eauto.
  - rewrite draw_shape_spec. simpl in Hb. rewrite Hb. apply IH.
Qed.

Lemma in_range i n : In i (range n) <-> 0 <= i < n.
Proof.
  unfold range. rewrite in_map_iff. split.
  - intros (k & <- & Hk). apply in_seq in Hk. lia.
  - intros Hi. exists (Z.to_nat i). split; [lia|]. apply in_seq. lia.
Qed.

Lemma range_succ n : 0 <= n -> range (n + 1) = range n ++ [n].
Proof.
  intros Hn. unfold range. replace (Z.to_nat (n + 1)) with (S (Z.to_nat n)) by lia.
  rewrite seq_S, map_app. simpl. rewrite Z2Nat.id by exact Hn. reflexivity.
Qed.

Lemma mask_layers_not_inverted feather pad W H :
  2 * pad <= W -> 2 * pad <= H ->
  Forall (fun l => inverted (fst l) = false) (mask_layers feather (solid_shape_box pad W H)).
Proof.
  intros HW HH. unfold mask_layers. apply Forall_app. split.
  - apply Forall_forall. intros l Hl. apply list_elem_of_In in Hl.
    apply in_map_iff in Hl as (i & <- & Hi).
    apply in_range in Hi. unfold layer, solid_shape_box, feather_box, inverted. cbn [fst].
    apply orb_false_intro; apply Z.ltb_ge; lia.
  - constructor; [|constructor]. unfold solid_shape_box, inverted. cbn [fst].
    apply orb_false_intro; apply Z.ltb_ge; lia.
Qed.

Lemma buildMask_ok W H feather shape pad :
  2 * pad <= W -> 2 * pad <= H ->
  exists m, buildMask (W, H) feather shape pad = Some m.
Proof.
  intros HW HH. rewrite buildMask_as_layers.
  apply draw_all_ok, mask_layers_not_inverted; assumption.
Qed.

Lemma buildMask_Some W H feather shape pad m :
  buildMask (W, H) feather shape pad = Some m ->
  width m = W /\ height m = H
  /\ forall x y,
       px m x y = paint shape (mask_layers feather (solid_shape_box pad W H)) 0 x y.
Proof.
  rewrite buildMask_as_layers. intros E. apply draw_all_Some in E. exact E.
Qed.

(** C1, as the code has it: whenever the solid box is not inverted
    ([2 * shapePadding] fits in both dimensions) the mask is built, and
    every cell of the solid shape drawn last holds 255: for the rectangle
    that is every cell of the solid box, for the circle the cells of the
    ellipse drawn inside it.  No condition on the feather width is
    needed. *)
Theorem solid_shape_opaque W H feather shape pad :
  2 * pad <= W -> 2 * pad <= H ->
  exists m,
    buildMask (W, H) feather shape pad = Some m
    /\ width m = W /\ height m = H
    /\ (forall x y, covers shape (solid_shape_box pad W H) x y = true -> px m x y = 255)
    /\ (String.eqb shape "circle" = false ->
        forall x y, pad <= x <= W - pad -> pad <= y <= H - pad -> px m x y = 255).
Proof.
  intros HW HH. destruct (buildMask_ok W H feather shape pad HW HH) as [m E].
  exists m. split; [exact E|]. apply buildMask_Some in E as (Hw & Hh & Hp).
  split; [exact Hw|]. split; [exact Hh|].
  assert (C : forall x y, covers shape (solid_shape_box pad W H) x y = true -> px m x y = 255).
  { intros x y Hc. rewrite Hp. unfold mask_layers. rewrite paint_app. simpl. rewrite Hc.
    reflexivity. }
  split; [exact C|]. intros Hs x y Hx Hy. apply C.
  unfold covers. rewrite Hs. unfold rectangle_covers, solid_shape_box.
  rewrite !andb_true_iff, !Z.leb_le. lia.
Qed.

End MaskFacts.

Lemma solid_shape_opaque_witness :
  exists m,
    buildMask (R := analytic) (100, 100) 10 "circle" 20 = Some m
    /\ width m = 100 /\ height m = 100
    /\ (forall x y, covers (R := analytic) "circle" (solid_shape_box 20 100 100) x y = true ->
                    px m x y = 255)
    /\ (String.eqb "circle" "circle" = false ->
        forall x y, 20 <= x <= 100 - 20 -> 20 <= y <= 100 - 20 -> px m x y = 255).
Proof. apply (solid_shape_opaque (R := analytic) 100 100 10 "circle" 20); lia. Defined.

(** C1 fails as stated for the circle: the corner [(20, 20)] of the solid
    box of a 100x100 mask (padding 20, feather 10) lies outside the
    inscribed ellipse and outside every ring, and stays 0. *)
Lemma circle_corner_transparent :
  rectangle_covers (solid_shape_box 20 100 100) 20 20 = true
  /\ (m ← buildMask (R := analytic) (100, 100) 10 "circle" 20; getpixel m 20 20) = Some 0
  /\ (m ← buildMask (R := analytic) (100, 100) 10 "circle" 20; getpixel m 50 50) = Some 255.
Proof. vm_compute. auto. Qed.

(** * The gradient *)

Section Gradient.
Context {R : Rasterizer}.
Variables (shape : string) (feather : Z) (solid : Box).
Hypothesis feather_pos : 0 < feather.

Lemma feather_box_0 : feather_box solid 0 = solid.
Proof.
  destruct solid as [[[x0 y0] x1] y1]. unfold feather_box.
  rewrite !Z.sub_0_r, !Z.add_0_r. reflexivity.
Qed.

Lemma find_seq (P : Z -> bool) s n :
  match find P (map Z.of_nat (seq s n)) with
  | Some d => Z.of_nat s <= d < Z.of_nat (s + n) /\ P d = true
              /\ forall d', Z.of_nat s <= d' < d -> P d' = false
  | None => forall d', Z.of_nat s <= d' < Z.of_nat (s + n) -> P d' = false
  end.
Proof.
  revert s. induction n as [|n IH]; intros s; simpl.
  - intros d' Hd. lia.
  - destruct (P (Z.of_nat s)) eqn:E.
    + split; [lia|]. split; [exact E|]. intros d' Hd. lia.
    + specialize (IH (S s)). destruct (find P (map Z.of_nat (seq (S s) n))) as [d|].
      * destruct IH as (Hd & Hp & Hl). split; [lia|]. split; [exact Hp|].
        intros d' Hd'. destruct (Z.eq_dec d' (Z.of_nat s)) as [->|N]; [exact E|].
        apply Hl. lia.
      * intros d' Hd'. destruct (Z.eq_dec d' (Z.of_nat s)) as [->|N]; [exact E|].
        apply IH. lia.
Qed.

Lemma ring_distance_spec x y :
  let d := ring_distance shape feather solid x y in
  0 <= d <= feather + 1
  /\ (d <= feather -> covers shape (feather_box solid d) x y = true)
  /\ (forall d', 0 <= d' < d -> d' <= feather ->
                 covers shape (feather_box solid d') x y = false).
Proof.
  unfold ring_distance, range.
  pose proof (find_seq (fun d => covers shape (feather_box solid d) x y) 0
                (Z.to_nat (feather + 1))) as F.
  destruct (find _ _) as [d|]; cbv zeta.
  - destruct F as (Hd & Hp & Hl). split; [lia|]. split; [intros _; exact Hp|].
    intros d' Hd' _. apply Hl. lia.
  - split; [lia|]. split; [lia|]. intros d' Hd' Hf. apply F. lia.
Qed.

Lemma paint_rings_none k v x y :
  (forall i, 0 <= i < Z.of_nat k ->
             covers shape (feather_box solid (feather - i)) x y = false) ->
  paint shape (map (layer feather solid) (map Z.of_nat (seq 0 k))) v x y = v.
Proof.
  induction k as [|k IH]; intros Hn; [reflexivity|].
  rewrite seq_S, !map_app, paint_app. simpl.
  rewrite Hn by lia. apply IH. intros i Hi. apply Hn. lia.
Qed.

Lemma paint_rings_last k j v x y :
  0 <= j < Z.of_nat k ->
  covers shape (feather_box solid (feather - j)) x y = true ->
  (forall i, j < i < Z.of_nat k ->
             covers shape (feather_box solid (feather - i)) x y = false) ->
  paint shape (map (layer feather solid) (map Z.of_nat (seq 0 k))) v x y = color j feather.
Proof.
  induction k as [|k IH]; intros Hj Hc Hn; [lia|].
  rewrite seq_S, !map_app, paint_app. simpl.
  destruct (Z.eq_dec j (Z.of_nat k)) as [->|N].
  - rewrite Hc. reflexivity.
  - rewrite Hn by lia. apply IH; [lia | exact Hc |]. intros i Hi. apply Hn. lia.
Qed.

(** The value a finished mask holds in a cell is the fill of the nearest
    shape that covers it. *)
Lemma paint_mask_layers x y :
  paint shape (mask_layers feather solid) 0 x y
  = ring_value feather (ring_distance shape feather solid x y).
Proof.
  destruct (ring_distance_spec x y) as (Hd & Hc & Hl).
  set (d := ring_distance shape feather solid x y) in *.
  unfold mask_layers, ring_value. rewrite paint_app. simpl. unfold range.
  destruct (Z.eqb_spec d 0) as [E|E].
  - rewrite E, feather_box_0 in Hc. rewrite Hc by lia. reflexivity.
  - assert (S0 : covers shape solid x y = false).
    { rewrite <- feather_box_0. apply Hl; lia. }
    rewrite S0. destruct (Z.leb_spec d feather) as [L|L].
    + apply paint_rings_last; [lia | | ].
      * replace (feather - (feather - d)) with d by ring. apply Hc, L.
      * intros i Hi. apply Hl; lia.
    + apply paint_rings_none. intros i Hi. apply Hl; lia.
Qed.

Lemma ring_value_range d : 0 <= d -> 0 <= ring_value feather d <= 255.
Proof.
  intros Hd. unfold ring_value.
  destruct (Z.eqb_spec d 0); [lia|]. destruct (Z.leb_spec d feather); [|lia].
  apply color_range; lia.
Qed.

Lemma ring_value_mono d d' :
  0 <= d <= d' -> ring_value feather d' <= ring_value feather d.
Proof.
  intros Hd. pose proof (ring_value_range d' ltac:(lia)) as B.
  unfold ring_value in *.
  destruct (Z.eqb_spec d 0); [destruct (Z.eqb_spec d' 0); lia|].
  destruct (Z.eqb_spec d' 0); [lia|].
  destruct (Z.leb_spec d' feather).
  - destruct (Z.leb_spec d feather); [|lia]. apply color_mono; lia.
  - destruct (Z.leb_spec d feather); [|lia].
    pose proof (color_range (feather - d) feather feather_pos ltac:(lia)). lia.
Qed.

Lemma rectangle_covers_distance d x y :
  rectangle_covers (feather_box solid d) x y = true <-> box_distance solid x y <= d.
Proof.
  destruct solid as [[[x0 y0] x1] y1]. unfold rectangle_covers, feather_box, box_distance.
  rewrite !andb_true_iff, !Z.leb_le. lia.
Qed.

Lemma ring_distance_rectangle x y x' y' :
  String.eqb shape "circle" = false ->
  box_distance solid x y <= box_distance solid x' y' ->
  ring_distance shape feather solid x y <= ring_distance shape feather solid x' y'.
Proof.
  intros Hs Hb.
  destruct (ring_distance_spec x y) as (Hd & _ & Hl).
  destruct (ring_distance_spec x' y') as (Hd' & Hc' & _).
  set (d := ring_distance shape feather solid x y) in *.
  set (d' := ring_distance shape feather solid x' y') in *.
  destruct (Z.le_gt_cases d d') as [L|G]; [exact L|]. exfalso.
  assert (C : covers shape (feather_box solid d') x y = false) by (apply Hl; lia).
  specialize (Hc' ltac:(lia)). unfold covers in *. rewrite Hs in *.
  apply rectangle_covers_distance in Hc'.
  assert (C' : rectangle_covers (feather_box solid d') x y = true)
    by (apply rectangle_covers_distance; lia).
  congruence.
Qed.

End Gradient.

Section GradientClaims.
Context {R : Rasterizer}.

(** C4: in a finished mask the value is monotone in the distance to the
    solid shape.  The distance of a cell is counted in rings (the least
    inset whose shape covers the cell); for the rectangle it is also
    monotone in the maximum-norm distance to the solid box.  Values lie in
    0..255, the solid shape holds 255, the outermost ring and everything
    outside hold 0. *)
Theorem mask_gradient_monotone W H feather shape pad m :
  0 < feather ->
  buildMask (W, H) feather shape pad = Some m ->
  let solid := solid_shape_box pad W H in
  let dist := ring_distance shape feather solid in
  (forall x y x' y', dist x y <= dist x' y' -> px m x' y' <= px m x y)
  /\ (forall x y, 0 <= px m x y <= 255)
  /\ (forall x y, dist x y = 0 -> px m x y = 255)
  /\ (forall x y, feather <= dist x y -> px m x y = 0)
  /\ (String.eqb shape "circle" = false ->
      forall x y x' y',
        box_distance solid x y <= box_distance solid x' y' -> px m x' y' <= px m x y).
Proof.
  intros Hf E solid dist. apply buildMask_Some in E as (_ & _ & Hp). fold solid in Hp.
  assert (V : forall x y, px m x y = ring_value feather (dist x y)).
  { intros x y. rewrite Hp. apply paint_mask_layers. exact Hf. }
  assert (D : forall x y, 0 <= dist x y <= feather + 1).
  { intros x y. apply (ring_distance_spec shape feather solid Hf x y). }
  assert (M : forall x y x' y', dist x y <= dist x' y' -> px m x' y' <= px m x y).
  { intros x y x' y' Hd. rewrite !V. apply ring_value_mono; [exact Hf|].
    pose proof (D x y). lia. }
  split; [exact M|]. split; [|split; [|split]].
  - intros x y. rewrite V. apply ring_value_range; [exact Hf|]. apply D.
  - intros x y E0. rewrite V, E0. reflexivity.
  - intros x y Hd. rewrite V. unfold ring_value. pose proof (D x y) as B.
    destruct (Z.eqb_spec (dist x y) 0); [lia|].
    destruct (Z.leb_spec (dist x y) feather); [|reflexivity].
    replace (dist x y) with feather by lia. rewrite Z.sub_diag. apply color_0.
  - intros Hs x y x' y' Hb. apply M. apply ring_distance_rectangle; assumption.
Qed.

(** C8, as the code has it: the gradient loop runs over [0 .. feather-1]
    in ascending order and draws, at step [i], the solid box grown by
    [feather - i] on all four sides, filled with the float expression
    [int(255 * (i / feather))].  For every feather width up to [2^45] that
    value is [floor(255 * i / feather)]. *)
Theorem gradient_loop_layers feather x0 y0 x1 y1 :
  1 <= feather <= 2 ^ 45 ->
  let solid := (x0, y0, x1, y1) in
  length (range feather) = Z.to_nat feather
  /\ (forall k, (k < Z.to_nat feather)%nat -> nth k (range feather) 0 = Z.of_nat k)
  /\ (forall i, 0 <= i < feather ->
        layer feather solid i
        = ((x0 - (feather - i), y0 - (feather - i), x1 + (feather - i), y1 + (feather - i)),
           intensity i feather))
  /\ intensity 0 feather = 0
  /\ forall shape m,
       foldM (gradient_step shape feather solid) m (range feather)
       = draw_all shape m
           (map (fun i => (feather_box solid (feather - i), intensity i feather))
              (range feather)).
Proof.
  intros Hf solid.
  assert (L : forall i, 0 <= i < feather ->
            layer feather solid i = (feather_box solid (feather - i), intensity i feather)).
  { intros i Hi. unfold layer, intensity. rewrite color_floor by lia. reflexivity. }
  split; [unfold range; rewrite length_map, length_seq; reflexivity|].
  split.
  { intros k Hk. unfold range. rewrite (nth_indep _ 0 (Z.of_nat 0)) by
      (rewrite length_map, length_seq; exact Hk).
    rewrite map_nth, seq_nth by exact Hk. reflexivity. }
  split; [intros i Hi; rewrite L by exact Hi; reflexivity|].
  split; [reflexivity|].
  intros shape m. rewrite gradient_as_layers. f_equal.
  apply map_ext_in. intros i Hi. apply L, in_range, Hi.
Qed.

End GradientClaims.

Lemma mask_gradient_monotone_witness :
  exists m,
    buildMask (R := analytic) (100, 100) 10 "circle" 20 = Some m
    /\ let solid := solid_shape_box 20 100 100 in
       let dist := ring_distance (R := analytic) "circle" 10 solid in
       (forall x y x' y', dist x y <= dist x' y' -> px m x' y' <= px m x y)
       /\ (forall x y, 0 <= px m x y <= 255)
       /\ (forall x y, dist x y = 0 -> px m x y = 255)
       /\ (forall x y, 10 <= dist x y -> px m x y = 0)
       /\ (String.eqb "circle" "circle" = false ->
           forall x y x' y',
             box_distance solid x y <= box_distance solid x' y' -> px m x' y' <= px m x y).
Proof.
  eexists. split; [reflexivity|].
  apply (mask_gradient_monotone (R := analytic) 100 100 10 "circle" 20); [lia | reflexivity].
Defined.

Lemma gradient_loop_layers_witness :
  let solid := (20, 20, 80, 80) in
  length (range 10) = Z.to_nat 10
  /\ (forall k, (k < Z.to_nat 10)%nat -> nth k (range 10) 0 = Z.of_nat k)
  /\ (forall i, 0 <= i < 10 ->
        layer 10 solid i
        = ((20 - (10 - i), 20 - (10 - i), 80 + (10 - i), 80 + (10 - i)), intensity i 10))
  /\ intensity 0 10 = 0
  /\ forall shape m,
       foldM (gradient_step (R := analytic) shape 10 solid) m (range 10)
       = draw_all (R := analytic) shape m
           (map (fun i => (feather_box solid (10 - i), intensity i 10)) (range 10)).
Proof. apply (gradient_loop_layers (R := analytic) 10 20 20 80 80). simpl. lia. Defined.

(** C8 fails as stated for very large feather widths: with
    [feather = 2^60] and [i = 2^60 - 1] the quotient [i / feather] rounds
    to [1.0], so the fill is 255 where [floor(255 * i / feather)] is
    254. *)
Lemma intensity_rounds_up :
  snd (layer (2 ^ 60) (0, 0, 0, 0) (2 ^ 60 - 1)) = 255
  /\ intensity (2 ^ 60 - 1) (2 ^ 60) = 254
  /\ snd (layer (2 ^ 60) (0, 0, 0, 0) (2 ^ 60 - 1)) <> intensity (2 ^ 60 - 1) (2 ^ 60).
Proof. vm_compute. repeat split; discriminate. Qed.

(** * Compositing *)

(** C5: on a raster and a mask of the same dimensions [composite]
    succeeds, keeps the dimensions and the three colour channels of every
    pixel, and sets the alpha channel to the mask cell. *)
Theorem composite_keeps_color (raster : Raster rgba) (mask : Raster Z) :
  width raster = width mask -> height raster = height mask ->
  exists out,
    composite raster mask = Some out
    /\ width out = width raster /\ height out = height raster
    /\ forall x y,
         red (px out x y) = red (px raster x y)
         /\ green (px out x y) = green (px raster x y)
         /\ blue (px out x y) = blue (px raster x y)
         /\ alpha (px out x y) = px mask x y.
Proof.
  intros Hw Hh. unfold composite, Image_putalpha.
  rewrite Hw, Hh, !Z.eqb_refl. simpl. eexists. split; [reflexivity|].
  cbn [width height px red green blue alpha]. repeat split; auto.
Qed.

Lemma composite_keeps_color_witness :
  exists out,
    composite (Image_convert_RGBA (sample_rgb 3 2)) (Image_new_L (3, 2) 9) = Some out
    /\ width out = 3 /\ height out = 2
    /\ forall x y,
         red (px out x y) = x /\ green (px out x y) = y /\ blue (px out x y) = 7
         /\ alpha (px out x y) = 9.
Proof.
  apply (composite_keeps_color (Image_convert_RGBA (sample_rgb 3 2)) (Image_new_L (3, 2) 9));
    reflexivity.
Defined.

(** * The batch driver *)

(** C6: with [shape_padding <= feather] [process] raises [BadParameter]
    before anything else: the world is as it was, so no directory is made,
    nothing is printed, no image is opened or saved. *)
Theorem process_rejects_bad_padding {R : Rasterizer} folder square offset_x offset_y feather
    shape shape_padding w :
  shape_padding <= feather ->
  process folder square offset_x offset_y feather shape shape_padding w = (BadParameter, w).
Proof.
  intros H. unfold process. apply Z.leb_le in H. rewrite H. reflexivity.
Qed.

Lemma process_rejects_bad_padding_witness :
  process (R := analytic)
    [{| stem := "a"; suffix := ".png"; is_file := true; decoded := Some (sample_rgb 100 100) |}]
    true 0 0 10 "circle" 5 (mkWorld ∅ [])
  = (BadParameter, mkWorld ∅ []).
Proof. apply (process_rejects_bad_padding (R := analytic)). lia. Defined.

(** * Image objects: what [create_feathered_image] does to the store *)

Section StoreFacts.
Context {R : Rasterizer}.

Lemma extends_refl s : extends s s.
Proof. intros k v H. exact H. Qed.

Lemma lookup_fresh (s : Store) : s !! fresh (dom s) = None.
Proof. apply not_elem_of_dom, is_fresh. Qed.

Lemma extends_insert s s' r v :
  extends s s' -> s !! r = None -> extends s (<[r := v]> s').
Proof.
  intros E N k w H. rewrite lookup_insert_ne; [apply E, H|]. intros ->. congruence.
Qed.

Lemma extends_fresh s s' : extends s s' -> s !! fresh (dom s') = None.
Proof.
  intros E. destruct (s !! fresh (dom s')) as [v|] eqn:H; [|reflexivity].
  apply E in H. rewrite lookup_fresh in H. discriminate H.
Qed.

Lemma draw_on_spec op r m (s : Store) :
  s !! r = Some (ImL m) ->
  draw_on op r s
  = match op m with
    | Some m' => (Some tt, <[r := ImL m']> s)
    | None => (None, s)
    end.
Proof.
  intros H. unfold draw_on, bind, load. rewrite H. destruct (op m); reflexivity.
Qed.

Lemma for_each_draws {B} (step : Raster Z -> B -> option (Raster Z)) body r l :
  (forall i, body i = draw_on (fun m => step m i) r) ->
  forall m (s : Store),
    s !! r = Some (ImL m) ->
    exists m1,
      for_each l body s
      = (match foldM step m l with Some _ => Some tt | None => None end, <[r := ImL m1]> s)
      /\ forall m', foldM step m l = Some m' -> m1 = m'.
Proof.
  intros Hb. induction l as [|i l IH]; intros m s H.
  - exists m. simpl. unfold ret. rewrite insert_id by exact H.
    split; [reflexivity|]. intros m' E. congruence.
  - cbn [for_each foldM]. unfold bind at 1. rewrite Hb, (draw_on_spec _ r m s H).
    destruct (step m i) as [m2|] eqn:E.
    + destruct (IH m2 (<[r := ImL m2]> s) (lookup_insert_eq _ _ _)) as (m1 & E1 & E2).
      exists m1. rewrite E1, insert_insert_eq. split; [reflexivity | exact E2].
    + exists m. rewrite insert_id by exact H. split; [reflexivity | discriminate].
Qed.

Lemma gradient_body_step shape feather solid r i :
  (if String.eqb shape "circle"
   then draw_on (Draw_ellipse (feather_box solid (feather - i)) (color i feather)) r
   else draw_on (Draw_rectangle (feather_box solid (feather - i)) (color i feather)) r)
  = draw_on (fun m => gradient_step shape feather solid m i) r.
Proof.
  unfold gradient_step, layer, draw_shape.
  destruct (String.eqb shape "circle"); reflexivity.
Qed.

Lemma solid_draw_step shape solid r :
  (if String.eqb shape "circle"
   then draw_on (Draw_ellipse solid 255) r
   else draw_on (Draw_rectangle solid 255) r)
  = draw_on (draw_shape shape solid 255) r.
Proof. unfold draw_shape. destruct (String.eqb shape "circle"); reflexivity. Qed.

Lemma crop_step image im (square : bool) ox oy (s : Store) :
  s !! image = Some im ->
  (if square return ImgM positive
   then let! sz := obj_size image in obj_crop image (crop_box sz ox oy)
   else obj_copy image) s
  = match (if square then Image_crop im (crop_box (size im) ox oy)
           else Some (Image_copy im)) with
    | Some c => (Some (fresh (dom s)), <[fresh (dom s) := c]> s)
    | None => (None, s)
    end.
Proof.
  intros H. destruct square.
  - unfold obj_size, obj_crop, bind, load, ret. rewrite H. simpl. rewrite H.
    destruct (Image_crop im _); reflexivity.
  - unfold obj_copy, bind, load. rewrite H. reflexivity.
Qed.

(** The run of [create_feathered_image] on a store: every object the store
    held is kept as it was, and the result is a new object holding the
    value [createFeatheredImage] computes from the input's value. *)
Lemma create_feathered_image_run (s : Store) image im square ox oy feather shape pad :
  s !! image = Some im ->
  exists res s',
    create_feathered_image image square ox oy feather shape pad s = (res, s')
    /\ extends s s'
    /\ match createFeatheredImage im square ox oy feather shape pad with
       | Some out => exists o, res = Some o /\ s !! o = None /\ s' !! o = Some (ImRGBA out)
       | None => res = None
       end.
Proof.
  intros H. unfold create_feathered_image, createFeatheredImage, crop.
  unfold bind at 1. rewrite (crop_step image im square ox oy s H).
  destruct (if square then _ else _) as [c|]; cbn [mbind option_bind];
    [|eexists _, _; split; [reflexivity|]; split; [apply extends_refl | reflexivity]].
  set (r1 := fresh (dom s)). set (s1 := <[r1 := c]> s).
  assert (X1 : extends s s1) by (apply extends_insert; [apply extends_refl | apply lookup_fresh]).
  unfold bind at 1. unfold obj_convert_RGBA, bind at 1, load.
  assert (L1 : s1 !! r1 = Some c) by apply lookup_insert_eq. rewrite L1.
  unfold alloc at 1. set (conv := Image_convert_RGBA c).
  set (r2 := fresh (dom s1)). set (s2 := <[r2 := ImRGBA conv]> s1).
  assert (N2 : s !! r2 = None) by (apply extends_fresh, X1).
  assert (X2 : extends s s2) by (apply extends_insert; assumption).
  assert (L2 : s2 !! r2 = Some (ImRGBA conv)) by apply lookup_insert_eq.
  unfold bind at 1. unfold obj_size at 1, bind at 1, load, ret. rewrite L2.
  cbn [size]. unfold bind at 1. unfold obj_new_L, alloc.
  set (mask0 := Image_new_L (width conv, height conv) 0).
  set (r3 := fresh (dom s2)). set (s3 := <[r3 := ImL mask0]> s2).
  assert (N3 : s !! r3 = None) by (apply extends_fresh, X2).
  assert (X3 : extends s s3) by (apply extends_insert; assumption).
  assert (L3 : s3 !! r3 = Some (ImL mask0)) by apply lookup_insert_eq.
  assert (D23 : r2 <> r3).
  { intros E. pose proof (lookup_fresh s2) as F. fold r3 in F. rewrite <- E, L2 in F.
    discriminate F. }
  unfold bind at 1. unfold obj_size at 1, bind at 1, load, ret. rewrite L3.
  cbn [size fst snd mask0 Image_new_L width height].
  set (solid := solid_shape_box pad (width conv) (height conv)).
  unfold buildMask. cbn [Image_new_L width height fst snd]. fold mask0. fold solid.
  unfold bind at 1.
  destruct (for_each_draws (gradient_step shape feather solid) _ r3 (range feather)
              (gradient_body_step shape feather solid r3) mask0 s3 L3) as (m1 & E1 & E2).
  rewrite E1. clear E1.
  assert (X4 : extends s (<[r3 := ImL m1]> s3)) by (apply extends_insert; assumption).
  destruct (foldM (gradient_step shape feather solid) mask0 (range feather)) as [m'|];
    cbn [mbind option_bind];
    [|eexists _, _; split; [reflexivity|]; split; [exact X4 | reflexivity]].
  rewrite (E2 m' eq_refl) in *. clear E2 m1.
  unfold s3. rewrite insert_insert_eq. set (s4 := <[r3 := ImL m']> s2).
  assert (L4 : s4 !! r3 = Some (ImL m')) by apply lookup_insert_eq.
  unfold bind at 1. rewrite solid_draw_step, (draw_on_spec _ r3 m' s4 L4).
  destruct (draw_shape shape solid 255 m') as [mk|];
    [|eexists _, _; split; [reflexivity|]; split;
      [apply extends_insert; assumption | reflexivity]].
  unfold s4. rewrite insert_insert_eq. set (s5 := <[r3 := ImL mk]> s2).
  assert (X5 : extends s s5) by (apply extends_insert; assumption).
  unfold bind at 1. unfold obj_putalpha, bind at 1, load.
  assert (L5 : s5 !! r2 = Some (ImRGBA conv)).
  { unfold s5. rewrite lookup_insert_ne by (intros E; apply D23; symmetry; exact E). exact L2. }
  rewrite L5. unfold bind at 1.
  assert (L6 : s5 !! r3 = Some (ImL mk)) by apply lookup_insert_eq. rewrite L6.
  unfold composite. cbn [mbind option_bind].
  destruct (Image_putalpha conv mk) as [out|].
  - unfold update, ret. eexists _, _. split; [reflexivity|].
    split; [apply extends_insert; assumption|].
    exists r2. split; [reflexivity|]. split; [exact N2 | apply lookup_insert_eq].
  - unfold raise. eexists _, _. split; [reflexivity|]. split; [exact X5 | reflexivity].
Qed.

End StoreFacts.

(** * Purity of [create_feathered_image] *)

(** C9: [create_feathered_image] is a function of the value of its input
    image and of its parameters.  Run on two worlds that hold the same
    image value (under any reference, among any other objects) it gives
    the same outcome: equal output rasters, or a raise in both.  Every
    object the store held before the call, the input among them, is as it
    was; the result is an object the store did not hold before.  The run
    touches the store only: the trace of outside effects is unchanged. *)
Theorem create_feathered_image_pure {R : Rasterizer} (w1 w2 : World) i1 i2 im square
    offset_x offset_y feather shape shape_padding :
  heap w1 !! i1 = Some im -> heap w2 !! i2 = Some im ->
  let '(r1, w1') :=
    lift (create_feathered_image i1 square offset_x offset_y feather shape shape_padding) w1 in
  let '(r2, w2') :=
    lift (create_feathered_image i2 square offset_x offset_y feather shape shape_padding) w2 in
  (r1 ≫= (heap w1' !!.)) = (r2 ≫= (heap w2' !!.))
  /\ (r1 ≫= (heap w1' !!.))
     = ImRGBA <$> createFeatheredImage im square offset_x offset_y feather shape shape_padding
  /\ extends (heap w1) (heap w1')
  /\ heap w1' !! i1 = Some im
  /\ (forall o, r1 = Some o -> heap w1 !! o = None /\ o <> i1)
  /\ trace w1' = trace w1.
Proof.
  intros H1 H2. unfold lift.
  destruct (create_feathered_image_run (heap w1) i1 im square offset_x offset_y feather shape
              shape_padding H1) as (r1 & s1 & E1 & X1 & P1).
  destruct (create_feathered_image_run (heap w2) i2 im square offset_x offset_y feather shape
              shape_padding H2) as (r2 & s2 & E2 & X2 & P2).
  rewrite E1, E2. cbn [heap trace].
  assert (V : forall (s s' : Store) r,
            match createFeatheredImage im square offset_x offset_y feather shape shape_padding with
            | Some out => exists o, r = Some o /\ s !! o = None /\ s' !! o = Some (ImRGBA out)
            | None => r = None
            end ->
            (r ≫= (s' !!.))
            = ImRGBA <$> createFeatheredImage im square offset_x offset_y feather shape
                           shape_padding).
  { intros s s' r P. destruct (createFeatheredImage _ _ _ _ _ _ _) as [out|].
    - destruct P as (o & -> & _ & L). exact L.
    - rewrite P. reflexivity. }
  split; [rewrite (V _ _ _ P1), (V _ _ _ P2); reflexivity|].
  split; [exact (V _ _ _ P1)|]. split; [exact X1|]. split; [apply X1, H1|].
  split; [|reflexivity].
  intros o ->. destruct (createFeatheredImage _ _ _ _ _ _ _) as [out|]; [|discriminate P1].
  destruct P1 as (o' & [= <-] & N & _). split; [exact N|]. intros ->. congruence.
Qed.

Lemma create_feathered_image_pure_witness :
  let w1 := mkWorld {[ 1%positive := sample_rgb 10 10 ]} [] in
  let w2 := mkWorld {[ 5%positive := sample_rgb 10 10 ]} [Echo Complete] in
  let '(r1, w1') :=
    lift (create_feathered_image (R := analytic) 1%positive true 0 0 2 "circle" 3) w1 in
  let '(r2, w2') :=
    lift (create_feathered_image (R := analytic) 5%positive true 0 0 2 "circle" 3) w2 in
  (r1 ≫= (heap w1' !!.)) = (r2 ≫= (heap w2' !!.))
  /\ (r1 ≫= (heap w1' !!.))
     = ImRGBA <$> createFeatheredImage (R := analytic) (sample_rgb 10 10) true 0 0 2 "circle" 3
  /\ extends (heap w1) (heap w1')
  /\ heap w1' !! 1%positive = Some (sample_rgb 10 10)
  /\ (forall o, r1 = Some o -> heap w1 !! o = None /\ o <> 1%positive)
  /\ trace w1' = trace w1.
Proof.
  apply (create_feathered_image_pure (R := analytic)
           (mkWorld {[ 1%positive := sample_rgb 10 10 ]} [])
           (mkWorld {[ 5%positive := sample_rgb 10 10 ]} [Echo Complete])
           1%positive 5%positive (sample_rgb 10 10) true 0 0 2 "circle" 3);
    reflexivity.
Defined.

(** * Output size of the square crop *)

(** C10 at a 10x9 image: the float box is [(0.5, 0, 9.5, 9)], Pillow rounds
    it to [(0, 0, 10, 9)], and the result is 10x9, not 9x9.  The same
    holds for the object-level program. *)
Lemma square_crop_not_square {R : Rasterizer} :
  round_box (crop_box (10, 9) 0 0) = (0, 0, 10, 9)
  /\ (r ← createFeatheredImage (sample_rgb 10 9) true 0 0 1 "rectangle" 2;
      Some (width r, height r)) = Some (10, 9)
  /\ (let '(r, s) :=
        create_feathered_image 1%positive true 0 0 1 "rectangle" 2
          {[ 1%positive := sample_rgb 10 9 ]} in
      o ← r; size <$> (s !! o)) = Some (10, 9)
  /\ Z.min 10 9 = 9.
Proof. vm_compute. auto. Qed.

(** * The rings of the inscribed ellipse are nested *)

Lemma ellipse_inequality_grows a c u v e :
  0 <= a -> 0 <= c -> 0 <= e -> u * u <= a * a -> v * v <= c * c ->
  u * u * (c * c) + v * v * (a * a) <= a * a * (c * c) ->
  u * u * ((c + e) * (c + e)) + v * v * ((a + e) * (a + e))
  <= (a + e) * (a + e) * ((c + e) * (c + e)).
Proof.
  intros Ha Hc He Hu Hv H.
  destruct (Z.eq_dec a 0) as [->|Na].
  { assert (u = 0) by nia. subst u. nia. }
  destruct (Z.eq_dec c 0) as [->|Nc].
  { assert (v = 0) by nia. subst v. nia. }
  set (P := (a + e) * (a + e)) in *. set (Q := (c + e) * (c + e)) in *.
  set (A := a * a) in *. set (C := c * c) in *. set (U := u * u) in *. set (V := v * v) in *.
  assert (HA : 0 < A) by (unfold A; nia). assert (HC : 0 < C) by (unfold C; nia).
  assert (HP : A <= P) by (unfold A, P; nia). assert (HQ : C <= Q) by (unfold C, Q; nia).
  assert (HU : 0 <= U) by (unfold U; nia). assert (HV : 0 <= V) by (unfold V; nia).
  clearbody P Q A C U V.
  assert (K : (U * Q + V * P) * (A * C) <= P * Q * (A * C)).
  { assert (K1 : (U * C + V * A) * (P * Q) <= A * C * (P * Q)).
    { apply Z.mul_le_mono_nonneg_r; [nia | exact H]. }
    assert (K2 : 0 <= U * C * Q * (P - A)) by (repeat apply Z.mul_nonneg_nonneg; lia).
    assert (K3 : 0 <= V * A * P * (Q - C)) by (repeat apply Z.mul_nonneg_nonneg; lia).
    nia. }
  apply Z.mul_le_mono_pos_r in K; [exact K | nia].
Qed.

Lemma inscribed_ellipse_nested solid d d' x y :
  inverted solid = false -> 0 <= d <= d' ->
  inscribed_ellipse (feather_box solid d) x y = true ->
  inscribed_ellipse (feather_box solid d') x y = true.
Proof.
  destruct solid as [[[x0 y0] x1] y1]. unfold inverted, inscribed_ellipse, feather_box.
  intros Hi Hd. apply orb_false_elim in Hi as [Hx Hy]. apply Z.ltb_ge in Hx, Hy.
  rewrite !andb_true_iff, !Z.leb_le. intros ((((B1 & B2) & B3) & B4) & E).
  repeat split; try lia.
  replace (x0 - d' + (x1 + d')) with (x0 - d + (x1 + d)) by ring.
  replace (y0 - d' + (y1 + d')) with (y0 - d + (y1 + d)) by ring.
  replace (x1 + d' - (x0 - d')) with (x1 + d - (x0 - d) + 2 * (d' - d)) by ring.
  replace (y1 + d' - (y0 - d')) with (y1 + d - (y0 - d) + 2 * (d' - d)) by ring.
  apply ellipse_inequality_grows; try lia; try exact E; nia.
Qed.

(** * Further properties of the mask *)

Section MaskExtras.
Context {R : Rasterizer}.

Lemma buildMask_inverted W H feather shape pad :
  W < 2 * pad \/ H < 2 * pad -> buildMask (W, H) feather shape pad = None.
Proof.
  intros Hs. unfold buildMask. cbn [Image_new_L width height fst snd].
  destruct (foldM _ _ _) as [m|]; [|reflexivity]. cbn [mbind option_bind].
  rewrite draw_shape_spec.
  assert (I : inverted (solid_shape_box pad W H) = true).
  { unfold inverted, solid_shape_box. apply orb_true_iff.
    destruct Hs; [left | right]; apply Z.ltb_lt; lia. }
  rewrite I. reflexivity.
Qed.

(** The mask cannot be built exactly when the solid box is inverted, that
    is when the image is narrower or lower than twice the padding: the
    drawing call then raises. *)
Theorem buildMask_fails_iff W H feather shape pad :
  buildMask (W, H) feather shape pad = None <-> (W < 2 * pad \/ H < 2 * pad).
Proof.
  split; [|apply buildMask_inverted].
  intros E. destruct (Z.lt_ge_cases W (2 * pad)) as [L|L]; [left; exact L|].
  destruct (Z.lt_ge_cases H (2 * pad)) as [L'|L']; [right; exact L'|].
  destruct (buildMask_ok W H feather shape pad L L') as [m E']. congruence.
Qed.

Lemma mask_value W H feather shape pad m :
  0 < feather -> buildMask (W, H) feather shape pad = Some m ->
  forall x y,
    px m x y
    = ring_value feather (ring_distance shape feather (solid_shape_box pad W H) x y).
Proof.
  intros Hf E x y. apply buildMask_Some in E as (_ & _ & Hp).
  rewrite Hp. apply paint_mask_layers. exact Hf.
Qed.

Lemma covers_box_distance shape solid d x y :
  (forall b x y, ellipse_covers b x y = true -> rectangle_covers b x y = true) ->
  covers shape (feather_box solid d) x y = true -> box_distance solid x y <= d.
Proof.
  intros Hb. unfold covers. destruct (String.eqb shape "circle"); intros C.
  - apply rectangle_covers_distance, Hb, C.
  - apply rectangle_covers_distance, C.
Qed.

(** Outside the feather band the mask is transparent: a cell whose
    distance to the solid box (maximum norm) is at least the feather width
    holds 0, whatever the shape, as long as an ellipse stays within its
    bounding box.  With [shape_padding > feather] this covers the whole
    border of the image. *)
Theorem mask_transparent_beyond_feather W H feather shape pad m :
  (forall b x y, ellipse_covers b x y = true -> rectangle_covers b x y = true) ->
  0 < feather ->
  buildMask (W, H) feather shape pad = Some m ->
  (forall x y, feather <= box_distance (solid_shape_box pad W H) x y -> px m x y = 0)
  /\ (feather < pad ->
      forall x y, inside m x y = true ->
                  x = 0 \/ x = W - 1 \/ y = 0 \/ y = H - 1 -> px m x y = 0).
Proof.
  intros Hb Hf E.
  assert (A : forall x y, feather <= box_distance (solid_shape_box pad W H) x y ->
                          px m x y = 0).
  { intros x y Hd. rewrite (mask_value W H feather shape pad m Hf E).
    destruct (ring_distance_spec shape feather (solid_shape_box pad W H) Hf x y)
      as (Hr & Hc & _).
    set (d := ring_distance shape feather (solid_shape_box pad W H) x y) in *.
    assert (Hge : feather <= d).
    { destruct (Z.le_gt_cases feather d) as [L|G]; [exact L|].
      specialize (Hc ltac:(lia)). apply (covers_box_distance _ _ _ _ _ Hb) in Hc. lia. }
    unfold ring_value. destruct (Z.eqb_spec d 0); [lia|].
    destruct (Z.leb_spec d feather); [|reflexivity].
    replace d with feather by lia. rewrite Z.sub_diag. apply color_0. }
  split; [exact A|]. intros Hp x y Hi Hedge. apply A.
  apply buildMask_Some in E as (Hw & Hh & _).
  unfold inside in Hi. rewrite Hw, Hh in Hi.
  rewrite !andb_true_iff, !Z.leb_le, !Z.ltb_lt in Hi.
  unfold box_distance, solid_shape_box. lia.
Qed.

Lemma ring_distance_rectangle_eq shape feather solid x y :
  0 < feather -> String.eqb shape "circle" = false ->
  ring_distance shape feather solid x y
  = Z.min (Z.max 0 (box_distance solid x y)) (feather + 1).
Proof.
  intros Hf Hs.
  destruct (ring_distance_spec shape feather solid Hf x y) as (Hr & Hc & Hl).
  set (d := ring_distance shape feather solid x y) in *.
  assert (C : forall k, covers shape (feather_box solid k) x y = true
                        <-> box_distance solid x y <= k).
  { intros k. unfold covers. rewrite Hs. apply rectangle_covers_distance. }
  assert (Lo : d <= feather -> box_distance solid x y <= d).
  { intros L. apply C, Hc, L. }
  assert (Hi : forall k, 0 <= k < d -> k <= feather -> k < box_distance solid x y).
  { intros k Hk Hkf. specialize (Hl k Hk Hkf).
    destruct (Z.lt_ge_cases k (box_distance solid x y)) as [L|G]; [exact L|].
    apply C in G. congruence. }
  destruct (Z.le_gt_cases d feather) as [L|G].
  - specialize (Lo L). destruct (Z.eq_dec d 0) as [E0|N0]; [lia|].
    specialize (Hi (d - 1) ltac:(lia) ltac:(lia)). lia.
  - specialize (Hi feather ltac:(lia) ltac:(lia)). lia.
Qed.

(** The rectangle mask in closed form: 255 on the solid box, then
    [floor(255 * (feather - d) / feather)] at distance [d] (maximum norm)
    from it, and 0 beyond the feather width. *)
Theorem rectangle_mask_formula W H feather shape pad m :
  String.eqb shape "circle" = false ->
  0 < feather <= 2 ^ 45 ->
  buildMask (W, H) feather shape pad = Some m ->
  forall x y,
    let d := box_distance (solid_shape_box pad W H) x y in
    px m x y
    = if d <=? 0 then 255
      else if d <=? feather then 255 * (feather - d) / feather
      else 0.
Proof.
  intros Hs Hf E x y d.
  rewrite (mask_value W H feather shape pad m ltac:(lia) E).
  rewrite (ring_distance_rectangle_eq shape feather _ x y ltac:(lia) Hs). fold d.
  unfold ring_value.
  destruct (Z.leb_spec d 0) as [L0|G0].
  - replace (Z.min (Z.max 0 d) (feather + 1)) with 0 by lia. reflexivity.
  - destruct (Z.leb_spec d feather) as [L|G].
    + replace (Z.min (Z.max 0 d) (feather + 1)) with d by lia.
      destruct (Z.eqb_spec d 0); [lia|].
      destruct (Z.leb_spec d feather); [|lia]. apply color_floor; lia.
    + replace (Z.min (Z.max 0 d) (feather + 1)) with (feather + 1) by lia.
      destruct (Z.eqb_spec (feather + 1) 0); [lia|].
      destruct (Z.leb_spec (feather + 1) feather); [lia | reflexivity].
Qed.

(** Only the solid shape is fully opaque: a cell of a finished mask holds
    255 exactly when the shape drawn last covers it; the gradient stays
    below 255. *)
Theorem opaque_iff_solid_shape W H feather shape pad m :
  0 < feather <= 2 ^ 45 ->
  buildMask (W, H) feather shape pad = Some m ->
  forall x y, px m x y = 255 <-> covers shape (solid_shape_box pad W H) x y = true.
Proof.
  intros Hf E x y.
  rewrite (mask_value W H feather shape pad m ltac:(lia) E).
  destruct (ring_distance_spec shape feather (solid_shape_box pad W H) ltac:(lia) x y)
    as (Hr & Hc & Hl).
  set (d := ring_distance shape feather (solid_shape_box pad W H) x y) in *.
  unfold ring_value. destruct (Z.eqb_spec d 0) as [E0|N0].
  - split; [intros _|reflexivity]. rewrite <- (feather_box_0 (solid_shape_box pad W H)).
    rewrite <- E0. apply Hc. lia.
  - assert (S0 : covers shape (solid_shape_box pad W H) x y = false).
    { rewrite <- (feather_box_0 (solid_shape_box pad W H)). apply Hl; lia. }
    rewrite S0. split; [|discriminate]. intros V. exfalso.
    destruct (Z.leb_spec d feather) as [L|G]; [|discriminate V].
    rewrite color_floor in V by lia.
    assert (255 * (feather - d) / feather < 255) by (apply Z.div_lt_upper_bound; lia).
    lia.
Qed.

End MaskExtras.

Lemma inscribed_ellipse_in_box b x y :
  inscribed_ellipse b x y = true -> rectangle_covers b x y = true.
Proof.
  destruct b as [[[x0 y0] x1] y1]. unfold inscribed_ellipse, rectangle_covers.
  rewrite !andb_true_iff. tauto.
Qed.

Lemma mask_transparent_beyond_feather_witness :
  exists m,
    buildMask (R := analytic) (100, 100) 10 "circle" 20 = Some m
    /\ (forall x y, 10 <= box_distance (solid_shape_box 20 100 100) x y -> px m x y = 0)
    /\ (10 < 20 ->
        forall x y, inside m x y = true ->
                    x = 0 \/ x = 100 - 1 \/ y = 0 \/ y = 100 - 1 -> px m x y = 0).
Proof.
  eexists. split; [reflexivity|].
  apply (mask_transparent_beyond_feather (R := analytic) 100 100 10 "circle" 20);
    [exact inscribed_ellipse_in_box | lia | reflexivity].
Defined.

Lemma rectangle_mask_formula_witness :
  exists m,
    buildMask (R := analytic) (100, 100) 10 "rectangle" 20 = Some m
    /\ forall x y,
         let d := box_distance (solid_shape_box 20 100 100) x y in
         px m x y
         = if d <=? 0 then 255 else if d <=? 10 then 255 * (10 - d) / 10 else 0.
Proof.
  eexists. split; [reflexivity|].
  apply (rectangle_mask_formula (R := analytic) 100 100 10 "rectangle" 20);
    [reflexivity | simpl; lia | reflexivity].
Defined.

Lemma opaque_iff_solid_shape_witness :
  exists m,
    buildMask (R := analytic) (100, 100) 10 "circle" 20 = Some m
    /\ forall x y,
         px m x y = 255
         <-> covers (R := analytic) "circle" (solid_shape_box 20 100 100) x y = true.
Proof.
  eexists. split; [reflexivity|].
  apply (opaque_iff_solid_shape (R := analytic) 100 100 10 "circle" 20);
    [simpl; lia | reflexivity].
Defined.

(** * Further properties of the whole transformation *)

Section PipelineExtras.
Context {R : Rasterizer}.

Lemma core_crop_size im b :
  let '(x0, y0, x1, y1) := b in
  width (Image_convert_RGBA (core_crop im b)) = Z.max 0 (x1 - x0)
  /\ height (Image_convert_RGBA (core_crop im b)) = Z.max 0 (y1 - y0).
Proof. destruct b as [[[x0 y0] x1] y1]. destruct im; split; reflexivity. Qed.

Lemma crop_dims im1 im2 square ox oy :
  size im1 = size im2 ->
  match crop im1 square ox oy, crop im2 square ox oy with
  | Some r1, Some r2 => width r1 = width r2 /\ height r1 = height r2
  | None, None => True
  | _, _ => False
  end.
Proof.
  intros Hs. unfold crop. destruct square.
  - rewrite <- Hs. unfold Image_crop.
    destruct (crop_box (size im1) ox oy) as [[[l u] r] lo] eqn:B.
    destruct (Qlt_le_dec r l); [exact I|]. destruct (Qlt_le_dec lo u); [exact I|].
    destruct (crop_raises (round_box (l, u, r, lo))); [exact I|].
    rewrite <- Hs.
    destruct (paste_defined (size im1) (round_box (l, u, r, lo))); [|exact I].
    cbn [mbind option_bind].
    pose proof (core_crop_size im1 (round_box (l, u, r, lo))) as S1.
    pose proof (core_crop_size im2 (round_box (l, u, r, lo))) as S2.
    destruct (round_box (l, u, r, lo)) as [[[x0 y0] x1] y1].
    destruct S1 as [-> ->], S2 as [-> ->]. split; reflexivity.
  - cbn [mbind option_bind]. unfold Image_copy.
    pose proof (size_convert im1) as S1. pose proof (size_convert im2) as S2.
    rewrite Hs, <- S2 in S1. injection S1 as -> ->. split; reflexivity.
Qed.

(** The alpha channel of the result does not depend on the picture: two
    images of the same size, processed with the same parameters, either
    both fail or give results of the same size with the same alpha in
    every pixel. *)
Theorem alpha_independent_of_content im1 im2 square offset_x offset_y feather shape
    shape_padding :
  size im1 = size im2 ->
  match createFeatheredImage im1 square offset_x offset_y feather shape shape_padding,
        createFeatheredImage im2 square offset_x offset_y feather shape shape_padding with
  | Some o1, Some o2 =>
      width o1 = width o2 /\ height o1 = height o2
      /\ forall x y, alpha (px o1 x y) = alpha (px o2 x y)
  | None, None => True
  | _, _ => False
  end.
Proof.
  intros Hs. unfold createFeatheredImage.
  pose proof (crop_dims im1 im2 square offset_x offset_y Hs) as D.
  destruct (crop im1 square offset_x offset_y) as [r1|],
           (crop im2 square offset_x offset_y) as [r2|]; try contradiction; [|exact I].
  destruct D as [Dw Dh]. cbn [mbind option_bind]. rewrite Dw, Dh.
  destruct (buildMask (width r2, height r2) feather shape shape_padding) as [m|];
    [|exact I].
  cbn [mbind option_bind]. unfold composite, Image_putalpha. rewrite Dw, Dh.
  destruct ((width r2 =? width m) && (height r2 =? height m)); [|exact I].
  cbn [width height px alpha]. auto.
Qed.

Lemma feathered_of_crop (r : Raster rgba) W H feather shape pad :
  width r = W -> height r = H -> 2 * pad <= W -> 2 * pad <= H ->
  exists m out,
    buildMask (W, H) feather shape pad = Some m
    /\ composite r m = Some out
    /\ width out = W /\ height out = H
    /\ forall x y,
         px out x y = RGBA (red (px r x y)) (green (px r x y)) (blue (px r x y)) (px m x y).
Proof.
  intros Hw Hh HW HH. destruct (buildMask_ok W H feather shape pad HW HH) as [m E].
  destruct (buildMask_Some _ _ _ _ _ _ E) as (Mw & Mh & _).
  exists m. unfold composite, Image_putalpha. rewrite Hw, Hh, Mw, Mh, !Z.eqb_refl.
  eexists. split; [exact E|]. split; [reflexivity|].
  cbn [width height px]. auto.
Qed.

(** Without squaring, the transformation succeeds exactly on images at
    least twice the padding wide and high.  The result has the size of the
    input and the colour of every input pixel; its alpha is the mask value
    of the cell, which depends on the position only. *)
Theorem feathered_no_square im W H offset_x offset_y feather shape shape_padding :
  size im = (W, H) ->
  (2 * shape_padding <= W /\ 2 * shape_padding <= H ->
   exists out,
     createFeatheredImage im false offset_x offset_y feather shape shape_padding = Some out
     /\ width out = W /\ height out = H
     /\ forall x y,
          let p := px (Image_convert_RGBA im) x y in
          red (px out x y) = red p /\ green (px out x y) = green p
          /\ blue (px out x y) = blue p
          /\ (0 < feather ->
              alpha (px out x y)
              = ring_value feather
                  (ring_distance shape feather (solid_shape_box shape_padding W H) x y)))
  /\ (W < 2 * shape_padding \/ H < 2 * shape_padding ->
      createFeatheredImage im false offset_x offset_y feather shape shape_padding = None).
Proof.
  intros Hs. pose proof (size_convert im) as Sc. rewrite Hs in Sc. injection Sc as Cw Ch.
  unfold createFeatheredImage, crop. cbn [mbind option_bind]. unfold Image_copy.
  rewrite Cw, Ch. split.
  - intros [HW HH].
    destruct (feathered_of_crop (Image_convert_RGBA im) W H feather shape shape_padding
                Cw Ch HW HH) as (m & out & E & C & Ow & Oh & P).
    exists out. rewrite E. cbn [mbind option_bind]. split; [exact C|].
    split; [exact Ow|]. split; [exact Oh|]. intros x y. cbv zeta. rewrite P.
    cbn [red green blue alpha]. repeat split; try reflexivity. intros Hf.
    apply (mask_value W H feather shape shape_padding m Hf E).
  - intros Hn. rewrite (buildMask_inverted W H feather shape shape_padding Hn). reflexivity.
Qed.

Lemma crop_box_even W H ox oy :
  0 <= W <= 2 ^ 50 -> 0 <= H <= 2 ^ 50 -> Z.abs ox <= 2 ^ 50 -> Z.abs oy <= 2 ^ 50 ->
  let cs := Z.min W H in
  Z.even cs = true \/ (Z.even (W - cs) = true /\ Z.even (H - cs) = true) ->
  round_box (crop_box (W, H) ox oy)
  = (round_half (W - cs + 2 * ox), round_half (H - cs + 2 * oy),
     round_half (W - cs + 2 * ox) + cs, round_half (H - cs + 2 * oy) + cs).
Proof.
  intros HW HH Hox Hoy cs Hev.
  rewrite (crop_box_round W H ox oy HW HH Hox Hoy). fold cs.
  assert (Ex : Z.even (W - cs + 2 * ox) = Z.even (W - cs)).
  { rewrite Z.even_add, Z.even_mul. simpl. destruct (Z.even (W - cs)); reflexivity. }
  assert (Ey : Z.even (H - cs + 2 * oy) = Z.even (H - cs)).
  { rewrite Z.even_add, Z.even_mul. simpl. destruct (Z.even (H - cs)); reflexivity. }
  replace (W + cs + 2 * ox) with (W - cs + 2 * ox + 2 * cs) by ring.
  replace (H + cs + 2 * oy) with (H - cs + 2 * oy + 2 * cs) by ring.
  rewrite (round_half_shift (W - cs + 2 * ox) cs), (round_half_shift (H - cs + 2 * oy) cs);
    [reflexivity| |].
  - rewrite Ey. destruct Hev as [E|[_ E]]; auto.
  - rewrite Ex. destruct Hev as [E|[E _]]; auto.
Qed.

(** The square crop does give a square where the arithmetic is exact: if
    the smaller side is even, or both margins are, and the crop box is
    within Pillow's limits, the result is [min(W,H)] wide and high for
    every offset, provided twice the padding fits in it.  With a box
    beyond the pixel limit or a coordinate beyond the C [int] range the
    transformation raises. *)
Theorem square_output_when_even im W H offset_x offset_y feather shape shape_padding :
  size im = (W, H) ->
  0 <= W <= 2 ^ 50 -> 0 <= H <= 2 ^ 50 ->
  Z.abs offset_x <= 2 ^ 50 -> Z.abs offset_y <= 2 ^ 50 ->
  let cs := Z.min W H in
  let b := round_box (crop_box (W, H) offset_x offset_y) in
  Z.even cs = true \/ (Z.even (W - cs) = true /\ Z.even (H - cs) = true) ->
  2 * shape_padding <= cs ->
  (crop_permitted (W, H) b = true ->
   exists out,
     createFeatheredImage im true offset_x offset_y feather shape shape_padding = Some out
     /\ width out = cs /\ height out = cs)
  /\ (crop_raises b = true ->
      createFeatheredImage im true offset_x offset_y feather shape shape_padding = None).
Proof.
  intros Hs HW HH Hox Hoy cs b Hev Hp.
  unfold createFeatheredImage.
  rewrite (crop_square_eq im W H offset_x offset_y Hs HW HH Hox Hoy). fold b.
  split; intros P;
    [rewrite P | rewrite (crop_raises_not_permitted (W, H) b P); reflexivity].
  cbn [mbind option_bind].
  pose proof (core_crop_size im b) as S. unfold b in *.
  rewrite (crop_box_even W H offset_x offset_y HW HH Hox Hoy Hev) in *. fold cs in S.
  destruct S as [Sw Sh].
  set (r := Image_convert_RGBA _) in *.
  assert (Rw : width r = cs) by (rewrite Sw; lia).
  assert (Rh : height r = cs) by (rewrite Sh; lia).
  rewrite Rw, Rh.
  destruct (feathered_of_crop r cs cs feather shape shape_padding Rw Rh Hp Hp)
    as (m & out & E & C & Ow & Oh & _).
  exists out. rewrite E. cbn [mbind option_bind]. auto.
Qed.

End PipelineExtras.

Lemma alpha_independent_of_content_witness :
  match createFeatheredImage (R := analytic) (sample_rgb 10 10) true 0 0 2 "circle" 3,
        createFeatheredImage (R := analytic) (sample_rgba 10 10 0) true 0 0 2 "circle" 3 with
  | Some o1, Some o2 =>
      width o1 = width o2 /\ height o1 = height o2
      /\ forall x y, alpha (px o1 x y) = alpha (px o2 x y)
  | None, None => True
  | _, _ => False
  end.
Proof.
  apply (alpha_independent_of_content (R := analytic) (sample_rgb 10 10) (sample_rgba 10 10 0)).
  reflexivity.
Defined.

Lemma feathered_no_square_witness :
  (2 * 3 <= 10 /\ 2 * 3 <= 8 ->
   exists out,
     createFeatheredImage (R := analytic) (sample_rgb 10 8) false 0 0 2 "circle" 3 = Some out
     /\ width out = 10 /\ height out = 8
     /\ forall x y,
          let p := px (Image_convert_RGBA (sample_rgb 10 8)) x y in
          red (px out x y) = red p /\ green (px out x y) = green p
          /\ blue (px out x y) = blue p
          /\ (0 < 2 ->
              alpha (px out x y)
              = ring_value 2
                  (ring_distance (R := analytic) "circle" 2 (solid_shape_box 3 10 8) x y)))
  /\ (10 < 2 * 3 \/ 8 < 2 * 3 ->
      createFeatheredImage (R := analytic) (sample_rgb 10 8) false 0 0 2 "circle" 3 = None).
Proof.
  apply (feathered_no_square (R := analytic) (sample_rgb 10 8) 10 8 0 0 2 "circle" 3).
  reflexivity.
Defined.

Lemma square_output_when_even_witness :
  exists out,
    createFeatheredImage (R := analytic) (sample_rgb 11 8) true 3 (-2) 1 "circle" 2 = Some out
    /\ width out = Z.min 11 8 /\ height out = Z.min 11 8.
Proof.
  apply (square_output_when_even (R := analytic) (sample_rgb 11 8) 11 8 3 (-2) 1 "circle" 2);
    [reflexivity | simpl; lia | simpl; lia | simpl; lia | simpl; lia
     | left; reflexivity | simpl; lia | reflexivity].
Defined.

Lemma round_half_bounds n : 0 <= n -> 0 <= round_half n <= n.
Proof.
  intros Hn. unfold round_half.
  pose proof (Z.div_mod n 2 ltac:(lia)) as DM.
  pose proof (Z.mod_pos_bound n 2 ltac:(lia)) as MB.
  destruct (Z.even n) eqn:E; [lia|].
  assert (M : n mod 2 = 1).
  { destruct (Z.eq_dec (n mod 2) 0) as [M|M]; [|lia].
    rewrite Zeven_mod, M in E. discriminate E. }
  destruct (Z.even (n / 2)); lia.
Qed.

(** With zero offsets the square crop is a window of the image: where the
    smaller side is even or both margins are, the result is [min(W,H)]
    wide and high, its window lies inside the image, and every cell holds
    the source pixel at the window position (no pixel is made up).  An
    even margin is split in half; a square image comes back whole.  The
    image is one Pillow holds (sides within the C [int] range) and the
    window is within the pixel limit of [Image.crop]. *)
Theorem centred_crop_is_window im W H :
  size im = (W, H) ->
  0 <= W <= 2 ^ 31 - 1 -> 0 <= H <= 2 ^ 31 - 1 ->
  let cs := Z.min W H in
  cs * cs <= 2 * MAX_IMAGE_PIXELS ->
  Z.even cs = true \/ (Z.even (W - cs) = true /\ Z.even (H - cs) = true) ->
  exists r x0 y0,
    crop im true 0 0 = Some r
    /\ width r = cs /\ height r = cs
    /\ 0 <= x0 <= W - cs /\ 0 <= y0 <= H - cs
    /\ (Z.even (W - cs) = true -> x0 = (W - cs) / 2)
    /\ (Z.even (H - cs) = true -> y0 = (H - cs) / 2)
    /\ forall x y,
         inside r x y = true ->
         inside (Image_convert_RGBA im) (x + x0) (y + y0) = true
         /\ px r x y = px (Image_convert_RGBA im) (x + x0) (y + y0).
Proof.
  intros Hs HW31 HH31 cs Ha Hev.
  assert (P31 : 2 ^ 31 = 2147483648) by reflexivity.
  assert (P50 : 2 ^ 50 = 1125899906842624) by reflexivity.
  assert (HW : 0 <= W <= 2 ^ 50) by lia. assert (HH : 0 <= H <= 2 ^ 50) by lia.
  assert (Z0 : Z.abs 0 <= 2 ^ 50) by (simpl; lia).
  exists (Image_convert_RGBA (core_crop im (round_box (crop_box (W, H) 0 0)))),
         (round_half (W - cs)), (round_half (H - cs)).
  pose proof (crop_square_eq im W H 0 0 Hs HW HH Z0 Z0) as C.
  rewrite (crop_box_even W H 0 0 HW HH Z0 Z0 Hev) in *. fold cs in C |- *.
  replace (W - cs + 2 * 0) with (W - cs) in * by ring.
  replace (H - cs + 2 * 0) with (H - cs) in * by ring.
  pose proof (round_half_bounds (W - cs) ltac:(lia)) as Bx.
  pose proof (round_half_bounds (H - cs) ltac:(lia)) as By.
  assert (P : crop_permitted (W, H) (round_half (W - cs), round_half (H - cs),
                              round_half (W - cs) + cs, round_half (H - cs) + cs) = true).
  { apply crop_permitted_intro; try lia.
    replace (round_half (W - cs) + cs - round_half (W - cs)) with cs by ring.
    replace (round_half (H - cs) + cs - round_half (H - cs)) with cs by ring.
    rewrite MAX_IMAGE_PIXELS_value in *.
    destruct (Z.eq_dec cs 0) as [->|N]; [simpl; lia|].
    rewrite !Z.max_r by lia. exact Ha. }
  rewrite P in C. split; [exact C|].
  pose proof (size_convert im) as Sc. rewrite Hs in Sc. injection Sc as Cw Ch.
  assert (Dim : width (Image_convert_RGBA
                         (core_crop im (round_half (W - cs), round_half (H - cs),
                                        round_half (W - cs) + cs, round_half (H - cs) + cs)))
                = cs
                /\ height (Image_convert_RGBA
                             (core_crop im (round_half (W - cs), round_half (H - cs),
                                            round_half (W - cs) + cs, round_half (H - cs) + cs)))
                   = cs).
  { pose proof (core_crop_size im (round_half (W - cs), round_half (H - cs),
                                   round_half (W - cs) + cs, round_half (H - cs) + cs)) as S.
    cbv beta iota in S. destruct S as [-> ->]. lia. }
  destruct Dim as [Dw Dh].
  split; [exact Dw|]. split; [exact Dh|]. split; [exact Bx|]. split; [exact By|].
  split; [intros E; apply round_half_even, E|].
  split; [intros E; apply round_half_even, E|].
  intros x y Hi. unfold inside in Hi. rewrite Dw, Dh in Hi.
  rewrite !andb_true_iff, !Z.leb_le, !Z.ltb_lt in Hi.
  assert (In : inside (Image_convert_RGBA im) (x + round_half (W - cs))
                 (y + round_half (H - cs)) = true).
  { unfold inside. rewrite Cw, Ch, !andb_true_iff, !Z.leb_le, !Z.ltb_lt. lia. }
  split; [exact In|].
  destruct im as [m|m|m|m pal]; unfold inside in In;
    cbn [core_crop Image_convert_RGBA raster_crop width height px] in *;
    unfold inside; rewrite In; reflexivity.
Qed.

Lemma centred_crop_is_window_witness :
  exists r x0 y0,
    crop (sample_rgb 200 100) true 0 0 = Some r
    /\ width r = Z.min 200 100 /\ height r = Z.min 200 100
    /\ 0 <= x0 <= 200 - Z.min 200 100 /\ 0 <= y0 <= 100 - Z.min 200 100
    /\ (Z.even (200 - Z.min 200 100) = true -> x0 = (200 - Z.min 200 100) / 2)
    /\ (Z.even (100 - Z.min 200 100) = true -> y0 = (100 - Z.min 200 100) / 2)
    /\ forall x y,
         inside r x y = true ->
         inside (Image_convert_RGBA (sample_rgb 200 100)) (x + x0) (y + y0) = true
         /\ px r x y = px (Image_convert_RGBA (sample_rgb 200 100)) (x + x0) (y + y0).
Proof.
  apply (centred_crop_is_window (sample_rgb 200 100) 200 100);
    [reflexivity | simpl; lia | simpl; lia | vm_compute; discriminate | left; reflexivity].
Defined.

(** * Further properties of the batch driver *)

Section DriverExtras.
Context {R : Rasterizer}.

Lemma extends_trans (s1 s2 s3 : Store) : extends s1 s2 -> extends s2 s3 -> extends s1 s3.
Proof. intros A B k v H. apply B, A, H. Qed.

Lemma process_file_spec square ox oy feather shape pad w p :
  exists h,
    process_file square ox oy feather shape pad w p
    = mkWorld h (trace w ++ [file_event square ox oy feather shape pad p])
    /\ extends (heap w) h.
Proof.
  unfold process_file, file_event. destruct (decoded p) as [im|]; cbn [mbind option_bind].
  2:{ exists (heap w). split; [reflexivity | apply extends_refl]. }
  unfold lift, bind at 1, alloc.
  set (r := fresh (dom (heap w))). set (s0 := <[r := im]> (heap w)).
  assert (X0 : extends (heap w) s0)
    by (apply extends_insert; [apply extends_refl | apply lookup_fresh]).
  destruct (create_feathered_image_run s0 r im square ox oy feather shape pad
              (lookup_insert_eq _ _ _)) as (res & s' & E & X & P).
  unfold bind at 1. rewrite E.
  destruct (createFeatheredImage im square ox oy feather shape pad) as [out|].
  - destruct P as (o & -> & _ & L). unfold load. rewrite L. cbn [heap trace emit].
    exists s'. split; [reflexivity | eapply extends_trans; eassumption].
  - rewrite P. cbn [heap trace emit].
    exists s'. split; [reflexivity | eapply extends_trans; eassumption].
Qed.

Lemma process_files_spec square ox oy feather shape pad files :
  forall w,
  exists h,
    foldl (process_file square ox oy feather shape pad) w files
    = mkWorld h (trace w ++ map (file_event square ox oy feather shape pad) files)
    /\ extends (heap w) h.
Proof.
  induction files as [|p files IH]; intros w; cbn [foldl map].
  - exists (heap w). rewrite app_nil_r. destruct w. split; [reflexivity | apply extends_refl].
  - destruct (process_file_spec square ox oy feather shape pad w p) as (h1 & E1 & X1).
    rewrite E1. destruct (IH (mkWorld h1 (trace w ++ [file_event square ox oy feather shape pad p])))
      as (h2 & E2 & X2).
    exists h2. rewrite E2. cbn [heap trace] in *. rewrite <- app_assoc.
    split; [reflexivity | eapply extends_trans; eassumption].
Qed.

(** With valid padding, [process] makes the output directory, then handles
    every regular file with a supported extension once, in directory order:
    it saves the result of the transformation as [<stem>.png], or reports
    the file when it cannot be decoded or the transformation raises, and
    goes on with the next file.  Without such files it reports that and
    returns.  No image object held before is changed. *)
Theorem process_trace folder square offset_x offset_y feather shape shape_padding w :
  feather < shape_padding ->
  exists h,
    process folder square offset_x offset_y feather shape shape_padding w
    = (Returned,
       mkWorld h
         (trace w ++ [Mkdir "processed"; Echo InputFolder; Echo OutputFolder]
          ++ match image_files folder with
             | [] => [Echo NoImages]
             | files =>
                 map (file_event square offset_x offset_y feather shape shape_padding) files
                 ++ [Echo Complete]
             end))
    /\ extends (heap w) h.
Proof.
  intros Hp. unfold process. apply Z.leb_gt in Hp. rewrite Hp.
  fold (image_files folder).
  destruct (image_files folder) as [|p files] eqn:F.
  - exists (heap w). split; [|apply extends_refl]. unfold emit. cbn [heap trace].
    rewrite <- !app_assoc. reflexivity.
  - destruct (process_files_spec square offset_x offset_y feather shape shape_padding
                (p :: files)
                (emit (Echo OutputFolder) (emit (Echo InputFolder) (emit (Mkdir "processed") w))))
      as (h & E & X).
    exists h. rewrite E. split; [|exact X]. unfold emit. cbn [heap trace].
    rewrite <- !app_assoc. reflexivity.
Qed.

(** Entries that are not regular files (the output directory itself is
    one) or whose extension is not supported, compared without regard to
    case, have no influence on the run. *)
Theorem process_ignores_unsupported l1 e l2 square offset_x offset_y feather shape
    shape_padding w :
  ~ (is_file e = true /\ lower (suffix e) ∈ SUPPORTED_EXTENSIONS) ->
  process (l1 ++ e :: l2) square offset_x offset_y feather shape shape_padding w
  = process (l1 ++ l2) square offset_x offset_y feather shape shape_padding w.
Proof.
  intros Hn. unfold process. rewrite !filter_app, (filter_cons_False _ e l2) by exact Hn.
  reflexivity.
Qed.

End DriverExtras.

Lemma process_trace_witness :
  exists h,
    process (R := analytic)
      [{| stem := "a"; suffix := ".PNG"; is_file := true;
          decoded := Some (sample_rgb 10 10) |};
       {| stem := "b"; suffix := ".jpg"; is_file := true; decoded := None |};
       {| stem := "notes"; suffix := ".txt"; is_file := true; decoded := None |}]
      true 0 0 2 "circle" 3 (mkWorld ∅ [])
    = (Returned,
       mkWorld h
         (trace (mkWorld ∅ []) ++ [Mkdir "processed"; Echo InputFolder; Echo OutputFolder]
          ++ match image_files
                     [{| stem := "a"; suffix := ".PNG"; is_file := true;
                         decoded := Some (sample_rgb 10 10) |};
                      {| stem := "b"; suffix := ".jpg"; is_file := true; decoded := None |};
                      {| stem := "notes"; suffix := ".txt"; is_file := true;
                         decoded := None |}] with
             | [] => [Echo NoImages]
             | files =>
                 map (file_event (R := analytic) true 0 0 2 "circle" 3) files
                 ++ [Echo Complete]
             end))
    /\ extends (heap (mkWorld ∅ [])) h.
Proof. apply (process_trace (R := analytic)). lia. Defined.

Lemma process_ignores_unsupported_witness :
  process (R := analytic)
    ([{| stem := "a"; suffix := ".png"; is_file := true; decoded := Some (sample_rgb 10 10) |}]
     ++ {| stem := "processed"; suffix := ""; is_file := false; decoded := None |} :: [])
    true 0 0 2 "circle" 3 (mkWorld ∅ [])
  = process (R := analytic)
      ([{| stem := "a"; suffix := ".png"; is_file := true; decoded := Some (sample_rgb 10 10) |}]
       ++ [])
      true 0 0 2 "circle" 3 (mkWorld ∅ []).
Proof.
  apply (process_ignores_unsupported (R := analytic)). cbn [is_file]. intros [C _].
  discriminate C.
Defined.

(** * The size of the square crop and the range of the mask *)

Lemma round_half_odd_shift n c :
  Z.even n = false -> Z.even c = false ->
  round_half (n + 2 * c) - round_half n = if Z.even (n / 2) then c + 1 else c - 1.
Proof.
  intros En Ec. unfold round_half.
  assert (E : Z.even (n + 2 * c) = false).
  { rewrite Z.even_add, Z.even_mul, En. reflexivity. }
  assert (D : (n + 2 * c) / 2 = n / 2 + c).
  { rewrite (Z.mul_comm 2 c), Z.div_add by lia. reflexivity. }
  rewrite E, En, D, Z.even_add, Ec. destruct (Z.even (n / 2)); simpl; lia.
Qed.

(** Where the smaller side and a margin are both odd the square crop is
    off by one along that axis: the box is one pixel wider (or higher)
    than [min(W,H)] when the floor of the left (upper) float coordinate is
    even, one pixel narrower when it is odd. *)
Theorem square_crop_off_by_one W H ox oy :
  0 <= W <= 2 ^ 50 -> 0 <= H <= 2 ^ 50 -> Z.abs ox <= 2 ^ 50 -> Z.abs oy <= 2 ^ 50 ->
  let cs := Z.min W H in
  Z.even cs = false ->
  let '(x0, y0, x1, y1) := round_box (crop_box (W, H) ox oy) in
  (Z.even (W - cs) = false ->
   x1 - x0 = if Z.even ((W - cs + 2 * ox) / 2) then cs + 1 else cs - 1)
  /\ (Z.even (H - cs) = false ->
      y1 - y0 = if Z.even ((H - cs + 2 * oy) / 2) then cs + 1 else cs - 1).
Proof.
  intros HW HH Hox Hoy cs Hc.
  rewrite (crop_box_round W H ox oy HW HH Hox Hoy). fold cs.
  replace (W + cs + 2 * ox) with (W - cs + 2 * ox + 2 * cs) by ring.
  replace (H + cs + 2 * oy) with (H - cs + 2 * oy + 2 * cs) by ring.
  split; intros E; apply round_half_odd_shift; try exact Hc;
    rewrite Z.even_add, Z.even_mul, E; reflexivity.
Qed.

Lemma square_crop_off_by_one_witness :
  let '(x0, y0, x1, y1) := round_box (crop_box (10, 9) 0 0) in
  (Z.even (10 - 9) = false ->
   x1 - x0 = if Z.even ((10 - 9 + 2 * 0) / 2) then 9 + 1 else 9 - 1)
  /\ (Z.even (9 - 9) = false ->
      y1 - y0 = if Z.even ((9 - 9 + 2 * 0) / 2) then 9 + 1 else 9 - 1).
Proof.
  apply (square_crop_off_by_one 10 9 0 0);
    [simpl; lia | simpl; lia | simpl; lia | simpl; lia | reflexivity].
Defined.

(** A finished mask has the requested size and holds alpha values: every
    cell lies in 0..255, for every feather width, also a non-positive one
    (no ring is drawn then). *)
Theorem mask_size_and_range {R : Rasterizer} W H feather shape pad m :
  buildMask (W, H) feather shape pad = Some m ->
  width m = W /\ height m = H /\ forall x y, 0 <= px m x y <= 255.
Proof.
  intros E. pose proof (buildMask_Some _ _ _ _ _ _ E) as (Hw & Hh & Hp).
  split; [exact Hw|]. split; [exact Hh|]. intros x y.
  destruct (Z.lt_ge_cases 0 feather) as [Hf|Hf].
  - rewrite Hp, (paint_mask_layers shape feather _ Hf).
    apply (ring_value_range feather Hf).
    apply (ring_distance_spec shape feather _ Hf x y).
  - rewrite Hp. unfold mask_layers, range.
    replace (Z.to_nat feather) with 0%nat by lia. simpl.
    destruct (covers shape (solid_shape_box pad W H) x y); lia.
Qed.

Lemma mask_size_and_range_witness :
  exists m,
    buildMask (R := analytic) (100, 100) 10 "circle" 20 = Some m
    /\ width m = 100 /\ height m = 100 /\ forall x y, 0 <= px m x y <= 255.
Proof.
  eexists. split; [reflexivity|].
  apply (mask_size_and_range (R := analytic) 100 100 10 "circle" 20). reflexivity.
Defined.
